(** * V-Player: a shallow embedding of the video library and player

    The repository is a React application of three components:
    - [App] (src/App.tsx), the root controller: the list of video entries and
      the index of the entry being played;
    - [VideoLibrary] (src/components/VideoLibrary.tsx): folder selection,
      grouping by folder name, and selection of an entry;
    - [VideoPlayer] (src/components/VideoPlayer.tsx): the player's state and
      its handlers.

    Each React state variable is a record field, each handler a function from
    state to state, written in the order of the source's statements.  What
    the browser decides (the strings [Math.random] and [URL.createObjectURL]
    return, whether a [play()] promise is fulfilled) is an explicit argument.
    JavaScript numbers are IEEE 754 doubles: they are Rocq's primitive
    floats, so [===] on numbers is [PrimFloat.eqb] and the arithmetic rounds
    as the engine does.  Numbers that only ever hold array indices are [Z]. *)

From Stdlib Require Import ZArith List String Ascii PrimFloat DecimalString.
From stdpp Require Import base option list gmap strings.
Import ListNotations.

Local Open Scope string_scope.
Local Open Scope Z_scope.

(** ** JavaScript built-ins used by the sources *)

Module Js.

(** [Array.prototype.findIndex]: the first index whose element satisfies
    [p], or -1. *)
Fixpoint findIndexFrom {A : Type} (p : A -> bool) (l : list A) (i : Z) : Z :=
  match l with
  | [] => -1
  | x :: r => if p x then i else findIndexFrom p r (i + 1)
  end.

Definition findIndex {A : Type} (p : A -> bool) (l : list A) : Z :=
  findIndexFrom p l 0.

(** [array[i]] for a number [i]: [undefined] (here [None]) out of range. *)
Definition at_index {A : Type} (l : list A) (i : Z) : option A :=
  if i <? 0 then None else l !! Z.to_nat i.

(** [array.length] as a number. *)
Definition length {A : Type} (l : list A) : Z := Z.of_nat (List.length l).

(** [a % b] on integers: the sign of the result is the dividend's. *)
Definition remainder (a b : Z) : Z := Z.rem a b.

(** [s.startsWith(p)]. *)
Definition startsWith (s p : string) : bool := String.prefix p s.

(** [s.substr(start, len)] for a start inside or past the string. *)
Definition substr (start len : nat) (s : string) : string :=
  String.substring start len s.

(** [s.split('/')]: the pieces between the separators; never empty. *)
Fixpoint split_slash (s : string) : list string :=
  match s with
  | EmptyString => [EmptyString]
  | String c r =>
      if Ascii.eqb c "/"%char then EmptyString :: split_slash r
      else match split_slash r with
           | h :: t => String c h :: t
           | [] => [String c EmptyString]
           end
  end.

(** Truthiness of a number: everything but [NaN], [0] and [-0]. *)
Definition truthy_number (x : float) : bool :=
  negb (PrimFloat.is_nan x) && negb (PrimFloat.eqb x 0%float).

(** Truthiness of [string | null]. *)
Definition truthy_string (s : option string) : bool :=
  match s with
  | Some EmptyString | None => false
  | Some _ => true
  end.

(** A finite double: what a WebIDL [double] attribute accepts. *)
Definition is_finite (x : float) : bool :=
  negb (PrimFloat.is_nan x) && negb (PrimFloat.is_infinity x).

(** [(bytes / (1024 * 1024)).toFixed(2)] for a byte count.  A count below
    2^53 is a double, its quotient by 2^20 is exact, and [toFixed(2)] prints
    the integer [n] nearest to a hundred times that quotient (the larger one
    on a tie) as [n / 100], a point and the two digits of [n mod 100]. *)
Definition decimal (n : N) : string := NilZero.string_of_uint (N.to_uint n).

Definition two_digits (n : N) : string :=
  (if (n <? 10)%N then "0" else EmptyString) ++ decimal n.

Definition mebibytes_toFixed2 (bytes : N) : string :=
  let n := ((bytes * 100 + 524288) / 1048576)%N in
  decimal (n / 100) ++ "." ++ two_digits (n mod 100).

End Js.

(** ** src/types.ts *)

Module VideoFile.

Record t : Type := Build {
  id : string;
  name : string;
  size : string;
  url : string;
  type : string;
  lastModified : Z;
  folderName : string;
  relativePath : string
}.

End VideoFile.

Inductive AspectRatio : Type :=
| FIT
| STRETCH
| CROP
| SIXTEEN_NINE
| FOUR_THREE.

Record PlayerSettings : Type := mkPlayerSettings {
  playbackSpeed : float;
  aspectRatio : AspectRatio;
  isLocked : bool
}.

(** ** src/App.tsx: the root controller *)

Module App.

Record State : Type := mkState {
  videos : list VideoFile.t;
  currentVideoIndex : option Z
}.

(** [useState([])] and [useState(null)]. *)
Definition initial : State :=
  {| videos := []; currentVideoIndex := None |}.

Definition handleAddVideos (newVideos : list VideoFile.t) (s : State) : State :=
  {| videos := (videos s ++ newVideos)%list;
     currentVideoIndex := currentVideoIndex s |}.

Definition handlePlayVideo (index : Z) (s : State) : State :=
  {| videos := videos s; currentVideoIndex := Some index |}.

Definition handleBackToLibrary (s : State) : State :=
  {| videos := videos s; currentVideoIndex := None |}.

Definition handleNextVideo (s : State) : State :=
  match currentVideoIndex s with
  | Some i =>
      if i <? Js.length (videos s) - 1
      then {| videos := videos s; currentVideoIndex := Some (i + 1) |}
      else s
  | None => s
  end.

Definition handlePrevVideo (s : State) : State :=
  match currentVideoIndex s with
  | Some i =>
      if i >? 0
      then {| videos := videos s; currentVideoIndex := Some (i - 1) |}
      else s
  | None => s
  end.

(** The props the player view receives when an index is set. *)
Definition video (s : State) : option VideoFile.t :=
  match currentVideoIndex s with
  | Some i => Js.at_index (videos s) i
  | None => None
  end.

Definition hasNext (s : State) : bool :=
  match currentVideoIndex s with
  | Some i => i <? Js.length (videos s) - 1
  | None => false
  end.

Definition hasPrev (s : State) : bool :=
  match currentVideoIndex s with
  | Some i => i >? 0
  | None => false
  end.

(** The current index, if set, is a position of the list. *)
Definition index_in_bounds (s : State) : Prop :=
  match currentVideoIndex s with
  | Some i => 0 <= i < Js.length (videos s)
  | None => True
  end.

End App.

(** ** The browser's [File] objects, as [handleFolderSelect] reads them *)

Module File.

Record t : Type := Build {
  name : string;
  size : N;
  type : string;
  lastModified : Z;
  webkitRelativePath : string
}.

End File.

(** ** src/components/VideoLibrary.tsx *)

Module Library.

(** What the browser answers: [random36 n] is the string
    [Math.random().toString(36)] of the n-th entry created, and
    [createObjectURL n] the locator made for it. *)
Record Oracle : Type := mkOracle {
  random36 : nat -> string;
  createObjectURL : nat -> string
}.

(** [useState<string | null>(null)]. *)
Record State : Type := mkState {
  selectedFolderName : option string
}.

Definition initial : State := {| selectedFolderName := None |}.

(** *** The [folders] memo

    [group] is the object literal [{}]: its own properties are a finite map,
    and a key it does not own is looked up in [Object.prototype], whose
    twelve properties are all truthy and none of them an array. *)
Definition object_prototype_keys : list string :=
  [ "constructor"; "__defineGetter__"; "__defineSetter__"; "hasOwnProperty";
    "__lookupGetter__"; "__lookupSetter__"; "isPrototypeOf";
    "propertyIsEnumerable"; "toString"; "valueOf"; "__proto__";
    "toLocaleString" ].

Inductive Property : Type :=
| Undefined
| OwnArray (l : list VideoFile.t)
| Inherited.

Definition get (group : gmap string (list VideoFile.t)) (key : string) : Property :=
  match group !! key with
  | Some l => OwnArray l
  | None =>
      if bool_decide (key ∈ object_prototype_keys) then Inherited else Undefined
  end.

Inductive Thrown : Type :=
| TypeError.

(** The body of the [forEach] callback:
    [if (!group[k]) group[k] = []; group[k].push(video)]. *)
Definition group_video (group : gmap string (list VideoFile.t)) (video : VideoFile.t)
  : Thrown + gmap string (list VideoFile.t) :=
  let k := VideoFile.folderName video in
  let group1 :=
    match get group k with
    | Undefined => <[k := []]> group
    | OwnArray _ | Inherited => group
    end in
  match get group1 k with
  | OwnArray l => inr (<[k := (l ++ [video])%list]> group1)
  | Undefined | Inherited => inl TypeError
  end.

Fixpoint forEach_group (videos : list VideoFile.t) (group : gmap string (list VideoFile.t))
  : Thrown + gmap string (list VideoFile.t) :=
  match videos with
  | [] => inr group
  | video :: rest =>
      match group_video group video with
      | inr group' => forEach_group rest group'
      | inl e => inl e
      end
  end.

Definition folders (videos : list VideoFile.t) : Thrown + gmap string (list VideoFile.t) :=
  forEach_group videos ∅.

(** *** [handleFolderSelect] *)

Definition folderName_of (webkitRelativePath : string) : string :=
  let pathParts := Js.split_slash webkitRelativePath in
  if Js.length pathParts >? 1
  then default EmptyString (Js.at_index pathParts (Js.length pathParts - 2))
  else "Internal Storage".

(** The object the [map] callback returns for the n-th entry created. *)
Definition newVideo (o : Oracle) (n : nat) (file : File.t) : VideoFile.t :=
  {| VideoFile.id := Js.substr 2 9 (random36 o n);
     VideoFile.name := File.name file;
     VideoFile.size := (Js.mebibytes_toFixed2 (File.size file) ++ " MB")%string;
     VideoFile.url := createObjectURL o n;
     VideoFile.type := File.type file;
     VideoFile.lastModified := File.lastModified file;
     VideoFile.folderName := folderName_of (File.webkitRelativePath file);
     VideoFile.relativePath := File.webkitRelativePath file |}.

Fixpoint map_newVideo (o : Oracle) (n : nat) (videoFiles : list File.t) : list VideoFile.t :=
  match videoFiles with
  | [] => []
  | file :: rest => newVideo o n file :: map_newVideo o (S n) rest
  end.

Definition is_video (file : File.t) : bool :=
  Js.startsWith (File.type file) "video/".

(** The argument [onAddVideos] is called with; [None] when [e.target.files]
    is null and nothing is called.  [created] counts the entries made
    before this call. *)
Definition handleFolderSelect (o : Oracle) (created : nat) (files : option (list File.t))
  : option (list VideoFile.t) :=
  match files with
  | Some filesArray =>
      let videoFiles := List.filter is_video filesArray in
      let newVideos := map_newVideo o created videoFiles in
      Some newVideos
  | None => None
  end.

(** *** The folder view *)

(** [selectedFolderName ? folders[selectedFolderName] : []]. *)
Definition filteredVideos (group : gmap string (list VideoFile.t)) (s : State) : Property :=
  if Js.truthy_string (selectedFolderName s)
  then get group (default EmptyString (selectedFolderName s))
  else OwnArray [].

(** The index a click on [video] passes to [onPlayVideo]. *)
Definition globalIndex (videos : list VideoFile.t) (video : VideoFile.t) : Z :=
  Js.findIndex (fun v => String.eqb (VideoFile.id v) (VideoFile.id video)) videos.

(** *** What the properties below speak of *)

(** The entry [v] carries what [handleFolderSelect] copies or derives from
    [file]. *)
Definition admitted_as (file : File.t) (v : VideoFile.t) : Prop :=
  VideoFile.name v = File.name file
  /\ VideoFile.type v = File.type file
  /\ VideoFile.lastModified v = File.lastModified file
  /\ VideoFile.relativePath v = File.webkitRelativePath file
  /\ VideoFile.folderName v = folderName_of (File.webkitRelativePath file)
  /\ VideoFile.size v = (Js.mebibytes_toFixed2 (File.size file) ++ " MB")%string.

(** The entries of [videos] whose folder name is [k], in their order. *)
Definition with_folder (k : string) (videos : list VideoFile.t) : list VideoFile.t :=
  List.filter (fun v => String.eqb (VideoFile.folderName v) k) videos.

End Library.

(** ** The media element behind [videoRef]

    The [<video>] element belongs to the browser.  The record keeps the
    attributes the component reads or writes, and [calls] logs, oldest
    first, what the component asked of the element.  The effect of a request
    on the attributes follows the HTML standard: [pause()] sets [paused];
    [load()] sets [paused], puts the playback position back to zero, forgets
    the duration and restores the default playback rate; a [play()] whose
    promise is fulfilled clears [paused]. *)

Module Media.

Inductive Call : Type :=
| Pause
| SetSrc (url : string)
| Load
| Play
| SetCurrentTime (t : float)
| SetPlaybackRate (r : float)
| SetVolume (v : float).

(** How the promise returned by [play()] settles; [NoPromise] is an engine
    whose [play()] returns [undefined]. *)
Inductive PlayResult : Type :=
| Fulfilled
| Rejected
| NoPromise.

Record t : Type := Build {
  src : string;
  paused : bool;
  currentTime : float;
  duration : float;
  playbackRate : float;
  volume : float;
  calls : list Call
}.

(** A [<video>] element that was just created. *)
Definition fresh : t :=
  {| src := EmptyString; paused := true; currentTime := 0%float;
     duration := nan; playbackRate := 1%float; volume := 1%float;
     calls := [] |}.

Definition pause (el : t) : t :=
  {| src := src el; paused := true; currentTime := currentTime el;
     duration := duration el; playbackRate := playbackRate el;
     volume := volume el; calls := (calls el ++ [Pause])%list |}.

Definition set_src (url : string) (el : t) : t :=
  {| src := url; paused := paused el; currentTime := currentTime el;
     duration := duration el; playbackRate := playbackRate el;
     volume := volume el; calls := (calls el ++ [SetSrc url])%list |}.

Definition load (el : t) : t :=
  {| src := src el; paused := true; currentTime := 0%float;
     duration := nan; playbackRate := 1%float;
     volume := volume el; calls := (calls el ++ [Load])%list |}.

Definition play (r : PlayResult) (el : t) : t :=
  {| src := src el;
     paused := match r with Fulfilled => false | Rejected | NoPromise => paused el end;
     currentTime := currentTime el;
     duration := duration el; playbackRate := playbackRate el;
     volume := volume el; calls := (calls el ++ [Play])%list |}.

(** The three attributes below are WebIDL [double]s: assigning a value that
    is not finite (or a volume outside 0..1) throws and changes nothing. *)
Definition set_currentTime (x : float) (el : t) : option t :=
  if Js.is_finite x
  then Some {| src := src el; paused := paused el; currentTime := x;
               duration := duration el; playbackRate := playbackRate el;
               volume := volume el;
               calls := (calls el ++ [SetCurrentTime x])%list |}
  else None.

Definition set_playbackRate (x : float) (el : t) : option t :=
  if Js.is_finite x
  then Some {| src := src el; paused := paused el; currentTime := currentTime el;
               duration := duration el; playbackRate := x;
               volume := volume el;
               calls := (calls el ++ [SetPlaybackRate x])%list |}
  else None.

Definition set_volume (x : float) (el : t) : option t :=
  if PrimFloat.leb 0%float x && PrimFloat.leb x 1%float
  then Some {| src := src el; paused := paused el; currentTime := currentTime el;
               duration := duration el; playbackRate := playbackRate el;
               volume := x;
               calls := (calls el ++ [SetVolume x])%list |}
  else None.

(** What the browser does to the element on its own between two events:
    playback advances, metadata arrives, playback stops. *)
Definition browser_update (time total : float) (stopped : bool) (el : t) : t :=
  {| src := src el; paused := stopped; currentTime := time;
     duration := total; playbackRate := playbackRate el;
     volume := volume el; calls := calls el |}.

End Media.

(** ** src/components/VideoPlayer.tsx *)

Module Player.

(** The [useState] variables and the two refs the handlers use.  A pending
    inactivity timer is kept with the values of [isPlaying] and
    [settings.isLocked] its callback closed over. *)
Record State : Type := mkState {
  isPlaying : bool;
  progress : float;
  duration : float;
  currentTime : float;
  volume : float;
  brightness : float;
  showControls : bool;
  error : option string;
  settings : PlayerSettings;
  videoRef : option Media.t;
  controlsTimeout : option (bool * bool)
}.

Definition defaultSettings : PlayerSettings :=
  {| playbackSpeed := 1%float; aspectRatio := FIT; isLocked := false |}.

(** The initial values given to [useState] and [useRef]. *)
Definition initial : State :=
  {| isPlaying := false; progress := 0%float; duration := 0%float;
     currentTime := 0%float; volume := 1%float; brightness := 100%float;
     showControls := true; error := None; settings := defaultSettings;
     videoRef := None; controlsTimeout := None |}.

(** After the first commit React has attached the [<video>] element. *)
Definition mounted : State :=
  {| isPlaying := false; progress := 0%float; duration := 0%float;
     currentTime := 0%float; volume := 1%float; brightness := 100%float;
     showControls := true; error := None; settings := defaultSettings;
     videoRef := Some Media.fresh; controlsTimeout := None |}.

(** *** State setters *)

Definition setIsPlaying (b : bool) (st : State) : State :=
  {| isPlaying := b; progress := progress st; duration := duration st;
     currentTime := currentTime st; volume := volume st;
     brightness := brightness st; showControls := showControls st;
     error := error st; settings := settings st; videoRef := videoRef st;
     controlsTimeout := controlsTimeout st |}.

Definition setProgress (x : float) (st : State) : State :=
  {| isPlaying := isPlaying st; progress := x; duration := duration st;
     currentTime := currentTime st; volume := volume st;
     brightness := brightness st; showControls := showControls st;
     error := error st; settings := settings st; videoRef := videoRef st;
     controlsTimeout := controlsTimeout st |}.

Definition setDuration (x : float) (st : State) : State :=
  {| isPlaying := isPlaying st; progress := progress st; duration := x;
     currentTime := currentTime st; volume := volume st;
     brightness := brightness st; showControls := showControls st;
     error := error st; settings := settings st; videoRef := videoRef st;
     controlsTimeout := controlsTimeout st |}.

Definition setCurrentTime (x : float) (st : State) : State :=
  {| isPlaying := isPlaying st; progress := progress st; duration := duration st;
     currentTime := x; volume := volume st;
     brightness := brightness st; showControls := showControls st;
     error := error st; settings := settings st; videoRef := videoRef st;
     controlsTimeout := controlsTimeout st |}.

Definition setVolume (x : float) (st : State) : State :=
  {| isPlaying := isPlaying st; progress := progress st; duration := duration st;
     currentTime := currentTime st; volume := x;
     brightness := brightness st; showControls := showControls st;
     error := error st; settings := settings st; videoRef := videoRef st;
     controlsTimeout := controlsTimeout st |}.

Definition setBrightness (x : float) (st : State) : State :=
  {| isPlaying := isPlaying st; progress := progress st; duration := duration st;
     currentTime := currentTime st; volume := volume st;
     brightness := x; showControls := showControls st;
     error := error st; settings := settings st; videoRef := videoRef st;
     controlsTimeout := controlsTimeout st |}.

Definition setShowControls (b : bool) (st : State) : State :=
  {| isPlaying := isPlaying st; progress := progress st; duration := duration st;
     currentTime := currentTime st; volume := volume st;
     brightness := brightness st; showControls := b;
     error := error st; settings := settings st; videoRef := videoRef st;
     controlsTimeout := controlsTimeout st |}.

Definition setError (e : option string) (st : State) : State :=
  {| isPlaying := isPlaying st; progress := progress st; duration := duration st;
     currentTime := currentTime st; volume := volume st;
     brightness := brightness st; showControls := showControls st;
     error := e; settings := settings st; videoRef := videoRef st;
     controlsTimeout := controlsTimeout st |}.

(** [setSettings(prev => f(prev))]. *)
Definition setSettings (f : PlayerSettings -> PlayerSettings) (st : State) : State :=
  {| isPlaying := isPlaying st; progress := progress st; duration := duration st;
     currentTime := currentTime st; volume := volume st;
     brightness := brightness st; showControls := showControls st;
     error := error st; settings := f (settings st); videoRef := videoRef st;
     controlsTimeout := controlsTimeout st |}.

Definition set_videoRef (el : option Media.t) (st : State) : State :=
  {| isPlaying := isPlaying st; progress := progress st; duration := duration st;
     currentTime := currentTime st; volume := volume st;
     brightness := brightness st; showControls := showControls st;
     error := error st; settings := settings st; videoRef := el;
     controlsTimeout := controlsTimeout st |}.

Definition set_controlsTimeout (t : option (bool * bool)) (st : State) : State :=
  {| isPlaying := isPlaying st; progress := progress st; duration := duration st;
     currentTime := currentTime st; volume := volume st;
     brightness := brightness st; showControls := showControls st;
     error := error st; settings := settings st; videoRef := videoRef st;
     controlsTimeout := t |}.

(** *** Handlers *)

(** [resetControlsTimer] closes over [isPlaying] and [settings.isLocked] of
    the render that made it; the two arguments are those values.  The
    previous timer is cancelled by the new one taking its place. *)
Definition resetControlsTimer (cIsPlaying cIsLocked : bool) (st : State) : State :=
  set_controlsTimeout (Some (cIsPlaying, cIsLocked)) (setShowControls true st).

(** The timer's callback, three seconds later. *)
Definition controlsTimeout_fired (st : State) : State :=
  match controlsTimeout st with
  | Some (cIsPlaying, cIsLocked) =>
      let st' := set_controlsTimeout None st in
      if cIsPlaying && negb cIsLocked then setShowControls false st' else st'
  | None => st
  end.

(** [r] is how the awaited [play()] settles; a rejection is caught and
    logged. *)
Definition togglePlay (r : Media.PlayResult) (st : State) : State :=
  if isLocked (settings st) || Js.truthy_string (error st) then st
  else
    match videoRef st with
    | Some el =>
        if Media.paused el
        then
          let st1 := set_videoRef (Some (Media.play r el)) st in
          match r with
          | Media.Fulfilled | Media.NoPromise => setIsPlaying true st1
          | Media.Rejected => st1
          end
        else setIsPlaying false (set_videoRef (Some (Media.pause el)) st)
    | None => st
    end.

Definition handleProgress (st : State) : State :=
  match videoRef st with
  | Some el =>
      let current := Media.currentTime el in
      let total := Media.duration el in
      setProgress ((current / total) * 100)%float (setCurrentTime current st)
  | None => st
  end.

(** [value] is [parseFloat(e.target.value)]. *)
Definition handleSeek (value : float) (st : State) : State :=
  if isLocked (settings st) then st
  else
    let newProgress := value in
    match videoRef st with
    | Some el =>
        if Js.truthy_number (Media.duration el)
        then
          let newTime := ((newProgress / 100) * Media.duration el)%float in
          match Media.set_currentTime newTime el with
          | Some el' => setProgress newProgress (set_videoRef (Some el') st)
          | None => st
          end
        else st
    | None => st
    end.

Definition AspectRatio_eqb (a b : AspectRatio) : bool :=
  match a, b with
  | FIT, FIT | STRETCH, STRETCH | CROP, CROP
  | SIXTEEN_NINE, SIXTEEN_NINE | FOUR_THREE, FOUR_THREE => true
  | _, _ => false
  end.

Definition order : list AspectRatio :=
  [FIT; STRETCH; CROP; SIXTEEN_NINE; FOUR_THREE].

Definition speeds : list float := [0.5; 1; 1.25; 1.5; 2]%float.

(** [order.indexOf(x)] and [speeds.indexOf(x)]: strict equality. *)
Definition order_indexOf (x : AspectRatio) : Z :=
  Js.findIndex (fun a => AspectRatio_eqb a x) order.

Definition speeds_indexOf (x : float) : Z :=
  Js.findIndex (fun s => PrimFloat.eqb s x) speeds.

Definition nextAspectIndex (st : State) : Z :=
  let currentIndex := order_indexOf (aspectRatio (settings st)) in
  Js.remainder (currentIndex + 1) (Js.length order).

Definition nextSpeedIndex (st : State) : Z :=
  let currentIndex := speeds_indexOf (playbackSpeed (settings st)) in
  Js.remainder (currentIndex + 1) (Js.length speeds).

(** In both handlers the list lookup is total on the indices that
    [nextAspectIndex] and [nextSpeedIndex] produce (lemmas
    [nextAspectIndex_lookup] and [nextSpeedIndex_lookup]); the [None] branch
    stands for JavaScript's [undefined] and is never taken. *)
Definition changeAspectRatio (st : State) : State :=
  match Js.at_index order (nextAspectIndex st) with
  | Some a =>
      setSettings (fun prev => {| playbackSpeed := playbackSpeed prev;
                                  aspectRatio := a;
                                  isLocked := isLocked prev |}) st
  | None => st
  end.

Definition changeSpeed (st : State) : State :=
  match Js.at_index speeds (nextSpeedIndex st) with
  | Some newSpeed =>
      let st1 :=
        setSettings (fun prev => {| playbackSpeed := newSpeed;
                                    aspectRatio := aspectRatio prev;
                                    isLocked := isLocked prev |}) st in
      match videoRef st with
      | Some el =>
          match Media.set_playbackRate newSpeed el with
          | Some el' => set_videoRef (Some el') st1
          | None => st1
          end
      | None => st1
      end
  | None => st
  end.

Definition toggleLock (st : State) : State :=
  setShowControls true
    (setSettings (fun prev => {| playbackSpeed := playbackSpeed prev;
                                 aspectRatio := aspectRatio prev;
                                 isLocked := negb (isLocked prev) |}) st).

(** The video load effect, run for the entry [video] with the promise of
    its [play()] settling as [r].  The [then] callback calls the
    [resetControlsTimer] of the render the effect belongs to. *)
Definition videoLoadEffect (video : VideoFile.t) (r : Media.PlayResult) (st : State) : State :=
  let st1 := setError None st in
  match videoRef st with
  | Some el =>
      let el1 := Media.pause el in
      let el2 := Media.set_src (VideoFile.url video) el1 in
      let el3 := Media.load el2 in
      let el4 := Media.play r el3 in
      let st2 := set_videoRef (Some el4) st1 in
      match r with
      | Media.Fulfilled =>
          resetControlsTimer (isPlaying st) (isLocked (settings st))
            (setIsPlaying true st2)
      | Media.Rejected => setIsPlaying false st2
      | Media.NoPromise => st2
      end
  | None => st1
  end.

(** The message of [handleVideoError]: this video cannot be played, the
    browser does not support its format. *)
Definition unplayable : string :=
  "এই ভিডিওটি প্লে করা যাচ্ছে না। ফরম্যাটটি ব্রাউজার সাপোর্ট করে না।".

Definition handleVideoError (st : State) : State :=
  setIsPlaying false (setError (Some unplayable) st).

(** [onEnded]. *)
Definition handleEnded (st : State) : State := setIsPlaying false st.

(** [onLoadedMetadata]: [setDuration(videoRef.current?.duration || 0)]. *)
Definition handleLoadedMetadata (st : State) : State :=
  match videoRef st with
  | Some el =>
      if Js.truthy_number (Media.duration el)
      then setDuration (Media.duration el) st
      else setDuration 0%float st
  | None => setDuration 0%float st
  end.

(** The mute button. *)
Definition toggleMute (st : State) : State :=
  let newVol := if PrimFloat.eqb (volume st) 0%float then 1%float else 0%float in
  let st1 := setVolume newVol st in
  match videoRef st with
  | Some el =>
      match Media.set_volume newVol el with
      | Some el' => set_videoRef (Some el') st1
      | None => st1
      end
  | None => st1
  end.

(** The volume slider; [v] is [parseFloat(e.target.value)]. *)
Definition handleVolume (v : float) (st : State) : State :=
  let st1 := setVolume v st in
  match videoRef st with
  | Some el =>
      match Media.set_volume v el with
      | Some el' => set_videoRef (Some el') st1
      | None => st1
      end
  | None => st1
  end.

(** The brightness slider; [b] is [parseInt(e.target.value)]. *)
Definition handleBrightness (b : float) (st : State) : State :=
  setBrightness b st.



(** The speed is one of the five of [speeds] and the aspect ratio one of
    the five of [order]. *)
Definition settings_listed (st : State) : Prop :=
  In (playbackSpeed (settings st)) speeds /\ In (aspectRatio (settings st)) order.

(** *** The rendered controls

    What the JSX puts in the document for a state.  The surface, the
    [<video>] element and the lock button are always there; the error
    overlay's button is there when [error] is set; every other control
    stands under [!settings.isLocked].  (An overlay that is hidden still
    holds its controls: hiding only turns pointer events off.) *)
Inductive Control : Type :=
| Surface
| VideoElement
| ErrorBackButton
| BackButton
| SpeedButton
| AspectButton
| MoreButton
| PrevButton
| PlayButton
| NextButton
| SeekBar
| LockButton
| MuteButton
| VolumeSlider
| BrightnessSlider
| FullscreenButton.

Definition rendered (st : State) (c : Control) : bool :=
  match c with
  | Surface | VideoElement | LockButton => true
  | ErrorBackButton => Js.truthy_string (error st)
  | BackButton | SpeedButton | AspectButton | MoreButton | PrevButton
  | PlayButton | NextButton | SeekBar | MuteButton | VolumeSlider
  | BrightnessSlider | FullscreenButton => negb (isLocked (settings st))
  end.

(** What a user can do to the player that stays inside it (back, next and
    previous call the root controller: see [System]). *)
Inductive Action : Type :=
| ClickSurface
| ClickVideo (r : Media.PlayResult)
| ClickSpeed
| ClickAspect
| ClickMore
| ClickPlay (r : Media.PlayResult)
| InputSeek (value : float)
| ClickLock
| ClickMute
| InputVolume (v : float)
| InputBrightness (b : float)
| ClickFullscreen.

Definition target (a : Action) : Control :=
  match a with
  | ClickSurface => Surface
  | ClickVideo _ => VideoElement
  | ClickSpeed => SpeedButton
  | ClickAspect => AspectButton
  | ClickMore => MoreButton
  | ClickPlay _ => PlayButton
  | InputSeek _ => SeekBar
  | ClickLock => LockButton
  | ClickMute => MuteButton
  | InputVolume _ => VolumeSlider
  | InputBrightness _ => BrightnessSlider
  | ClickFullscreen => FullscreenButton
  end.

(** The control's own handler. *)
Definition handler (a : Action) (st : State) : State :=
  match a with
  | ClickSurface | ClickMore | ClickFullscreen => st
  | ClickVideo r | ClickPlay r => togglePlay r st
  | ClickSpeed => changeSpeed st
  | ClickAspect => changeAspectRatio st
  | InputSeek value => handleSeek value st
  | ClickLock => toggleLock st
  | ClickMute => toggleMute st
  | InputVolume v => handleVolume v st
  | InputBrightness b => handleBrightness b st
  end.

(** A click goes on to the surface's [onClick={resetControlsTimer}] unless
    the control stops its propagation; a slider's change is no click. *)
Definition reaches_surface (a : Action) : bool :=
  match a with
  | ClickSurface | ClickSpeed | ClickAspect | ClickMore | ClickLock
  | ClickMute | ClickFullscreen => true
  | ClickVideo _ | ClickPlay _ | InputSeek _ | InputVolume _
  | InputBrightness _ => false
  end.

(** One user action on the state [st]: nothing when its control is not in
    the document; otherwise the handlers of the event, all of them closures
    of the render of [st]. *)
Definition act (a : Action) (st : State) : State :=
  if rendered st (target a)
  then
    let st1 := handler a st in
    if reaches_surface a
    then resetControlsTimer (isPlaying st) (isLocked (settings st)) st1
    else st1
  else st.

(** *** Events *)

Inductive Event : Type :=
| User (a : Action)
| TimerFired
| BrowserUpdate (time total : float) (stopped : bool)
| TimeUpdate
| LoadedMetadata
| Ended
| MediaError
| Bind (video : VideoFile.t) (r : Media.PlayResult).

Definition step (e : Event) (st : State) : State :=
  match e with
  | User a => act a st
  | TimerFired => controlsTimeout_fired st
  | BrowserUpdate time total stopped =>
      set_videoRef (Media.browser_update time total stopped <$> videoRef st) st
  | TimeUpdate => handleProgress st
  | LoadedMetadata => handleLoadedMetadata st
  | Ended => handleEnded st
  | MediaError => handleVideoError st
  | Bind video r => videoLoadEffect video r st
  end.

(** The states of a player view: it is mounted, its effect binds the first
    entry, and from then on events arrive in any order.  React runs the
    effect again when [video] changes and when [resetControlsTimer] does
    (that is, when [isPlaying] or [settings.isLocked] changed); [Bind] at
    any point covers both. *)
Inductive reachable : State -> Prop :=
| reachable_mount (video : VideoFile.t) (r : Media.PlayResult) :
    reachable (videoLoadEffect video r mounted)
| reachable_step (e : Event) (st : State) :
    reachable st -> reachable (step e st).

(** A handler keeps the speed and the aspect ratio. *)
Definition keeps_cycles (h : State -> State) : Prop :=
  forall st,
    playbackSpeed (settings (h st)) = playbackSpeed (settings st)
    /\ aspectRatio (settings (h st)) = aspectRatio (settings st).

Ltac keeps :=
  let st := fresh "st" in
  intros st;
  unfold togglePlay, handleProgress, handleSeek, toggleLock, videoLoadEffect,
    handleVideoError, handleEnded, handleLoadedMetadata, toggleMute,
    handleVolume, handleBrightness, controlsTimeout_fired, resetControlsTimer;
  repeat case_match; split; reflexivity.

End Player.

(** ** The three components together

    [App] renders the library view while [currentVideoIndex] is null and the
    player view otherwise.  The player view stands at one place of the tree
    and has no key: going to the next or previous entry changes its [video]
    prop and keeps its state, while going through the library unmounts it
    and mounts a new one. *)

Module System.

Record State : Type := mkState {
  app : App.State;
  library : Library.State;
  player : option Player.State;
  created : nat
}.

Definition initial : State :=
  {| app := App.initial; library := Library.initial; player := None;
     created := 0%nat |}.

(** [Bind] is the player's effect: in the application it runs for the entry
    the root controller passes down. *)
Definition allowed (a : App.State) (e : Player.Event) : Prop :=
  match e with
  | Player.Bind video _ => App.video a = Some video
  | _ => True
  end.

Inductive step (o : Library.Oracle) : State -> State -> Prop :=
| step_select_storage (s : State) (files : option (list File.t))
    (newVideos : list VideoFile.t) :
    App.currentVideoIndex (app s) = None ->
    Js.truthy_string (Library.selectedFolderName (library s)) = false ->
    Library.handleFolderSelect o (created s) files = Some newVideos ->
    step o s
      {| app := App.handleAddVideos newVideos (app s);
         library := library s;
         player := player s;
         created := (created s + List.length newVideos)%nat |}
| step_open_folder (s : State) (group : gmap string (list VideoFile.t))
    (folderName : string) :
    App.currentVideoIndex (app s) = None ->
    Js.truthy_string (Library.selectedFolderName (library s)) = false ->
    Library.folders (App.videos (app s)) = inr group ->
    is_Some (group !! folderName) ->
    step o s
      {| app := app s;
         library := {| Library.selectedFolderName := Some folderName |};
         player := player s;
         created := created s |}
| step_close_folder (s : State) :
    App.currentVideoIndex (app s) = None ->
    Js.truthy_string (Library.selectedFolderName (library s)) = true ->
    step o s
      {| app := app s;
         library := {| Library.selectedFolderName := None |};
         player := player s;
         created := created s |}
| step_play (s : State) (group : gmap string (list VideoFile.t))
    (shown : list VideoFile.t) (video bound : VideoFile.t) (r : Media.PlayResult) :
    App.currentVideoIndex (app s) = None ->
    Js.truthy_string (Library.selectedFolderName (library s)) = true ->
    Library.folders (App.videos (app s)) = inr group ->
    Library.filteredVideos group (library s) = Library.OwnArray shown ->
    In video shown ->
    App.video (App.handlePlayVideo (Library.globalIndex (App.videos (app s)) video) (app s))
      = Some bound ->
    step o s
      {| app := App.handlePlayVideo (Library.globalIndex (App.videos (app s)) video) (app s);
         library := Library.initial;
         player := Some (Player.videoLoadEffect bound r Player.mounted);
         created := created s |}
| step_player (s : State) (p : Player.State) (e : Player.Event) :
    player s = Some p ->
    allowed (app s) e ->
    step o s
      {| app := app s; library := library s;
         player := Some (Player.step e p);
         created := created s |}
| step_back (s : State) (p : Player.State) (c : Player.Control) :
    player s = Some p ->
    c = Player.BackButton \/ c = Player.ErrorBackButton ->
    Player.rendered p c = true ->
    step o s
      {| app := App.handleBackToLibrary (app s);
         library := Library.initial;
         player := None;
         created := created s |}
| step_next (s : State) (p : Player.State) (bound : VideoFile.t) (r : Media.PlayResult) :
    player s = Some p ->
    Player.rendered p Player.NextButton = true ->
    App.hasNext (app s) = true ->
    App.video (App.handleNextVideo (app s)) = Some bound ->
    step o s
      {| app := App.handleNextVideo (app s);
         library := library s;
         player := Some (Player.videoLoadEffect bound r p);
         created := created s |}
| step_prev (s : State) (p : Player.State) (bound : VideoFile.t) (r : Media.PlayResult) :
    player s = Some p ->
    Player.rendered p Player.PrevButton = true ->
    App.hasPrev (app s) = true ->
    App.video (App.handlePrevVideo (app s)) = Some bound ->
    step o s
      {| app := App.handlePrevVideo (app s);
         library := library s;
         player := Some (Player.videoLoadEffect bound r p);
         created := created s |}.

Inductive reachable (o : Library.Oracle) : State -> Prop :=
| reachable_initial : reachable o initial
| reachable_step (s s' : State) :
    reachable o s -> step o s s' -> reachable o s'.

(** The identifiers the generator has handed out after [n] entries. *)
Definition drawn_ids (o : Library.Oracle) (n : nat) : list string :=
  List.map (fun k => Js.substr 2 9 (Library.random36 o k)) (seq 0 n).

(** The library view is mounted exactly when no index is set. *)
Definition consistent (s : State) : Prop :=
  App.currentVideoIndex (app s) = None <-> player s = None.

Definition ids (s : State) : list string :=
  List.map VideoFile.id (App.videos (app s)).

(** What every step of the application keeps. *)
Definition invariant (o : Library.Oracle) (s : State) : Prop :=
  App.index_in_bounds (app s)
  /\ consistent s
  /\ created s = List.length (App.videos (app s))
  /\ ids s = drawn_ids o (created s).

End System.

(** * Properties *)

(** ** Sample inputs used by the witnesses and counterexamples *)

Module Sample.

Definition file_a : File.t :=
  {| File.name := "a.mp4"; File.size := 1572864; File.type := "video/mp4";
     File.lastModified := 1700000000000;
     File.webkitRelativePath := "Movies/a.mp4" |}.

Definition file_b : File.t :=
  {| File.name := "b.webm"; File.size := 5243; File.type := "video/webm";
     File.lastModified := 1700000000001;
     File.webkitRelativePath := "Movies/b.webm" |}.

Definition file_notes : File.t :=
  {| File.name := "notes.txt"; File.size := 12; File.type := "text/plain";
     File.lastModified := 1700000000002;
     File.webkitRelativePath := "Movies/notes.txt" |}.

(** A generator whose draws differ, and one that repeats itself. *)
Definition counting : Library.Oracle :=
  {| Library.random36 := fun n => "0.id" ++ Js.decimal (N.of_nat n);
     Library.createObjectURL := fun n => "blob:" ++ Js.decimal (N.of_nat n) |}.

Definition repeating : Library.Oracle :=
  {| Library.random36 := fun _ => "0.4fzyo82mvyr";
     Library.createObjectURL := fun n => "blob:" ++ Js.decimal (N.of_nat n) |}.

Definition video_a : VideoFile.t := Library.newVideo counting 0 file_a.
Definition video_b : VideoFile.t := Library.newVideo counting 1 file_b.

(** A player mounted on [video_a].  Its effect runs at the mount and, as
    the fulfilled [play()] changed [isPlaying], once more. *)
Definition started : Player.State :=
  Player.videoLoadEffect video_a Media.Fulfilled Player.mounted.

Definition playing : Player.State :=
  Player.videoLoadEffect video_a Media.Fulfilled started.

(** The same player after a press on the lock button (the change of
    [settings.isLocked] runs the effect again). *)
Definition locked : Player.State :=
  Player.videoLoadEffect video_a Media.Fulfilled
    (Player.act Player.ClickLock playing).

(** A player whose speed button was pressed once. *)
Definition faster : Player.State := Player.act Player.ClickSpeed playing.

(** A file in a directory named like a property every object inherits. *)
Definition file_c : File.t :=
  {| File.name := "c.mp4"; File.size := 1048576; File.type := "video/mp4";
     File.lastModified := 1700000000003;
     File.webkitRelativePath := "constructor/c.mp4" |}.

Definition video_c : VideoFile.t := Library.newVideo counting 0 file_c.

(** The application after the storage with [file_a], [file_notes] and
    [file_b] was selected, its folder opened, [video_a] played, the speed
    button pressed, and the next entry asked for. *)
Definition two_videos (index : option Z) : App.State :=
  {| App.videos := [video_a; video_b]; App.currentVideoIndex := index |}.

Definition in_library : System.State :=
  {| System.app := two_videos None; System.library := Library.initial;
     System.player := None; System.created := 2 |}.

Definition in_folder : System.State :=
  {| System.app := two_videos None;
     System.library := {| Library.selectedFolderName := Some "Movies" |};
     System.player := None; System.created := 2 |}.

Definition in_player_started : System.State :=
  {| System.app := two_videos (Some 0); System.library := Library.initial;
     System.player := Some started; System.created := 2 |}.

Definition in_player : System.State :=
  {| System.app := two_videos (Some 0); System.library := Library.initial;
     System.player := Some playing; System.created := 2 |}.

Definition sped_up : System.State :=
  {| System.app := two_videos (Some 0); System.library := Library.initial;
     System.player := Some faster; System.created := 2 |}.

Definition at_next : System.State :=
  {| System.app := two_videos (Some 1); System.library := Library.initial;
     System.player :=
       Some (Player.videoLoadEffect video_b Media.Fulfilled faster);
     System.created := 2 |}.

(** The same storage selected when the generator repeats itself. *)
Definition twins : System.State :=
  {| System.app :=
       {| App.videos := [Library.newVideo repeating 0 file_a;
                         Library.newVideo repeating 1 file_b];
          App.currentVideoIndex := None |};
     System.library := Library.initial;
     System.player := None; System.created := 2 |}.

End Sample.

(** ** Notions the further properties speak of *)

Module Notions.

(** No character of the string is a slash. *)
Fixpoint no_slash (s : string) : bool :=
  match s with
  | EmptyString => true
  | String c r => negb (Ascii.eqb c "/"%char) && no_slash r
  end.

(** The requests an event may make of the media element without binding
    an entry: everything but a change of source and a load. *)
Definition keeps_source (c : Media.Call) : bool :=
  match c with
  | Media.SetSrc _ | Media.Load => false
  | Media.Pause | Media.Play | Media.SetCurrentTime _
  | Media.SetPlaybackRate _ | Media.SetVolume _ => true
  end.

(** An event that is not the video load effect. *)
Definition not_bind (e : Player.Event) : bool :=
  match e with
  | Player.Bind _ _ => false
  | _ => true
  end.

(** Two player states differ at most in the visibility of the controls
    and the pending inactivity timer. *)
Definition same_but_controls (st st' : Player.State) : Prop :=
  Player.set_controlsTimeout None (Player.setShowControls true st)
  = Player.set_controlsTimeout None (Player.setShowControls true st').

Ltac unfold_handlers :=
  unfold Player.act, Player.handler, Player.togglePlay, Player.changeSpeed,
    Player.changeAspectRatio, Player.handleSeek, Player.toggleLock,
    Player.toggleMute, Player.handleVolume, Player.handleBrightness,
    Player.resetControlsTimer, Player.controlsTimeout_fired,
    Player.handleProgress, Player.handleLoadedMetadata, Player.handleEnded,
    Player.handleVideoError, Player.videoLoadEffect,
    Media.set_currentTime, Media.set_playbackRate, Media.set_volume in *.

End Notions.

(** ** The player's settings *)

Section SettingsFacts.

Import Player.

Lemma reachable_playing : reachable Sample.playing.
Proof.
  apply (reachable_step (Bind Sample.video_a Media.Fulfilled)).
  apply reachable_mount.
Qed.

Lemma reachable_faster : reachable Sample.faster.
Proof. apply (reachable_step (User ClickSpeed)). apply reachable_playing. Qed.

(** Two doubles that [===] tells apart are different values. *)
Lemma float_neq (x y : float) : PrimFloat.eqb x y = false -> PrimFloat.eqb x x = true -> x <> y.
Proof.
  intros Hxy Hxx E. rewrite <- E in Hxy. rewrite Hxx in Hxy. discriminate.
Qed.

Lemma order_indexOf_range (a : AspectRatio) : 0 <= order_indexOf a < 5.
Proof. destruct a; vm_compute; split; congruence. Qed.

(** The index after the current one, modulo the length, is a position of
    the list: [order[nextIndex]] and [speeds[nextIndex]] are never
    [undefined]. *)
Lemma nextAspectIndex_lookup (st : State) :
  exists a, Js.at_index order (nextAspectIndex st) = Some a /\ In a order.
Proof.
  unfold nextAspectIndex. destruct (aspectRatio (settings st));
    vm_compute; eexists; split; try reflexivity; tauto.
Qed.

Lemma nextSpeedIndex_lookup (st : State) :
  exists x, Js.at_index speeds (nextSpeedIndex st) = Some x /\ In x speeds.
Proof.
  unfold nextSpeedIndex, speeds_indexOf, Js.findIndex, speeds.
  cbn [Js.findIndexFrom].
  repeat (destruct (PrimFloat.eqb _ (playbackSpeed (settings st)));
          [ vm_compute; eexists; split; [ reflexivity | tauto ] | ]).
  vm_compute; eexists; split; [ reflexivity | tauto ].
Qed.

Lemma settings_changeAspectRatio (st : State) :
  exists a, Js.at_index order (nextAspectIndex st) = Some a /\
    settings (changeAspectRatio st) =
      {| playbackSpeed := playbackSpeed (settings st);
         aspectRatio := a;
         isLocked := isLocked (settings st) |}.
Proof.
  destruct (nextAspectIndex_lookup st) as (a & Ha & _).
  exists a. split; [ exact Ha | ]. unfold changeAspectRatio. now rewrite Ha.
Qed.

Lemma settings_changeSpeed (st : State) :
  exists x, Js.at_index speeds (nextSpeedIndex st) = Some x /\
    settings (changeSpeed st) =
      {| playbackSpeed := x;
         aspectRatio := aspectRatio (settings st);
         isLocked := isLocked (settings st) |}.
Proof.
  destruct (nextSpeedIndex_lookup st) as (x & Hx & _).
  exists x. split; [ exact Hx | ]. unfold changeSpeed. rewrite Hx.
  destruct (videoRef st) as [el|]; [ | reflexivity ].
  destruct (Media.set_playbackRate x el); reflexivity.
Qed.









(** *** What the other handlers leave alone *)

Lemma keeps_togglePlay r : keeps_cycles (togglePlay r).
Proof. keeps. Qed.

Lemma keeps_handleSeek v : keeps_cycles (handleSeek v).
Proof. keeps. Qed.

Lemma keeps_toggleLock : keeps_cycles toggleLock.
Proof. keeps. Qed.

Lemma keeps_toggleMute : keeps_cycles toggleMute.
Proof. keeps. Qed.

Lemma keeps_handleVolume v : keeps_cycles (handleVolume v).
Proof. keeps. Qed.

Lemma keeps_resetControlsTimer p l : keeps_cycles (resetControlsTimer p l).
Proof. keeps. Qed.

Lemma keeps_videoLoadEffect video r : keeps_cycles (videoLoadEffect video r).
Proof. keeps. Qed.

Lemma settings_listed_eq (st st' : State) :
  playbackSpeed (settings st') = playbackSpeed (settings st)
  /\ aspectRatio (settings st') = aspectRatio (settings st) ->
  settings_listed st -> settings_listed st'.
Proof. unfold settings_listed. intros [-> ->]. tauto. Qed.

Lemma settings_listed_changeSpeed (st : State) :
  settings_listed st -> settings_listed (changeSpeed st).
Proof.
  intros [_ Ha]. destruct (settings_changeSpeed st) as (x & Hx & E).
  destruct (nextSpeedIndex_lookup st) as (x' & Hx' & Hin).
  unfold settings_listed. rewrite E. cbn. split; [ | exact Ha ].
  rewrite Hx in Hx'. now injection Hx' as ->.
Qed.

Lemma settings_listed_changeAspectRatio (st : State) :
  settings_listed st -> settings_listed (changeAspectRatio st).
Proof.
  intros [Hs _]. destruct (settings_changeAspectRatio st) as (a & Ha & E).
  destruct (nextAspectIndex_lookup st) as (a' & Ha' & Hin).
  unfold settings_listed. rewrite E. cbn. split; [ exact Hs | ].
  rewrite Ha in Ha'. now injection Ha' as ->.
Qed.

Lemma settings_listed_handler (a : Action) (st : State) :
  settings_listed st -> settings_listed (handler a st).
Proof.
  intros H. destruct a; cbn [handler];
    first
      [ exact H
      | now apply settings_listed_changeSpeed
      | now apply settings_listed_changeAspectRatio
      | eapply settings_listed_eq; [ | exact H ];
        first [ apply keeps_togglePlay | apply keeps_handleSeek
              | apply keeps_toggleLock | apply keeps_toggleMute
              | apply keeps_handleVolume ] ].
Qed.

Lemma settings_listed_step (e : Event) (st : State) :
  settings_listed st -> settings_listed (step e st).
Proof.
  intros H. destruct e as [a| | | | | | |video r]; cbn [step];
    try (eapply settings_listed_eq; [ | exact H ];
         unfold controlsTimeout_fired, handleProgress, handleLoadedMetadata,
           handleEnded, handleVideoError;
         repeat case_match; split; reflexivity).
  - unfold act. destruct (rendered st (target a)); [ | exact H ].
    destruct (reaches_surface a).
    + eapply settings_listed_eq; [ apply keeps_resetControlsTimer | ].
      now apply settings_listed_handler.
    + now apply settings_listed_handler.
  - eapply settings_listed_eq; [ apply keeps_videoLoadEffect | exact H ].
Qed.

Lemma settings_listed_mounted : settings_listed mounted.
Proof. unfold settings_listed. cbn. tauto. Qed.

Lemma settings_listed_found (st : State) :
  settings_listed st ->
  0 <= speeds_indexOf (playbackSpeed (settings st))
  /\ 0 <= order_indexOf (aspectRatio (settings st)).
Proof.
  intros [Hs Ha]. split.
  - unfold speeds in Hs. cbn [In] in Hs.
    destruct Hs as [<-|[<-|[<-|[<-|[<-|[]]]]]]; vm_compute; congruence.
  - apply order_indexOf_range.
Qed.

(** The player view of a state the application reaches is in a state a
    player view reaches. *)
Lemma player_view_reachable (o : Library.Oracle) (s : System.State) (p : State) :
  System.reachable o s -> System.player s = Some p -> reachable p.
Proof.
  intros Hreach. revert p.
  induction Hreach as [|s s' _ IH Hstep]; intros q Hq; [ discriminate | ].
  destruct Hstep as
    [ s files newVideos Hidx Hsel Hcall
    | s group folderName Hidx Hsel Hgroup Hkey
    | s Hidx Hsel
    | s group shown video bound r Hidx Hsel Hgroup Hshown Hin Hbound
    | s p e Hp Hallowed
    | s p c Hp Hc Hrendered
    | s p bound r Hp Hrendered Hnext Hbound
    | s p bound r Hp Hrendered Hprev Hbound ];
    cbn [System.player] in Hq; try (now apply IH); try discriminate;
    injection Hq as <-.
  - apply reachable_mount.
  - apply reachable_step. now apply IH.
  - apply (reachable_step (Bind bound r)). now apply IH.
  - apply (reachable_step (Bind bound r)). now apply IH.
Qed.

(** C10.  The settings start with a listed speed and a listed aspect ratio,
    the two cycle handlers keep them listed, and so they are listed in every
    state a player view reaches, on its own or inside the application; there
    the current value is found in its list, and the lookup at the next index
    yields an element. *)
Theorem settings_stay_listed :
  settings_listed initial
  /\ (forall st : State,
        settings_listed st ->
        settings_listed (changeSpeed st) /\ settings_listed (changeAspectRatio st))
  /\ (forall st : State,
        reachable st ->
        settings_listed st
        /\ 0 <= speeds_indexOf (playbackSpeed (settings st))
        /\ 0 <= order_indexOf (aspectRatio (settings st))
        /\ is_Some (Js.at_index speeds (nextSpeedIndex st))
        /\ is_Some (Js.at_index order (nextAspectIndex st)))
  /\ (forall (o : Library.Oracle) (s : System.State) (p : State),
        System.reachable o s -> System.player s = Some p ->
        settings_listed p).
Proof.
  assert (Hlisted : forall st, reachable st -> settings_listed st).
  { induction 1 as [video r|e st _ IH].
    - eapply settings_listed_eq;
        [ apply keeps_videoLoadEffect | apply settings_listed_mounted ].
    - now apply settings_listed_step. }
  split; [ | split; [ | split ] ];
    [ | | | intros o s p Hs Hp; eapply Hlisted, player_view_reachable; eauto ].
  - unfold settings_listed. cbn. tauto.
  - intros st H. split.
    + now apply settings_listed_changeSpeed.
    + now apply settings_listed_changeAspectRatio.
  - intros st Hreach. specialize (Hlisted st Hreach).
    destruct (settings_listed_found st Hlisted) as [Hs Ha].
    destruct (nextSpeedIndex_lookup st) as (x & Hx & _).
    destruct (nextAspectIndex_lookup st) as (a & Hq & _).
    repeat split; try tauto; try (apply Hlisted); eauto.
Qed.

Lemma settings_stay_listed_witness :
  settings_listed (changeSpeed Sample.faster)
  /\ settings_listed (step (User ClickAspect) Sample.faster)
  /\ 0 <= speeds_indexOf (playbackSpeed (settings Sample.faster)).
Proof.
  pose proof settings_stay_listed as (_ & Hkeep & Hreach & _).
  pose proof reachable_faster as R.
  split; [ | split ].
  - apply Hkeep. apply (Hreach _ R).
  - apply (Hreach _ (reachable_step (User ClickAspect) _ R)).
  - apply (Hreach _ R).
Defined.

End SettingsFacts.

(** ** The lock *)

Section Lock.

Import Player.

(** C1, as the claim states it, fails: the two cycle handlers do not look at
    the lock flag.  On the locked sample state [changeAspectRatio] moves the
    aspect ratio from Fit to Stretch and [changeSpeed] the speed from 1 to
    1.25. *)
Lemma locked_cycle_counterexample :
  isLocked (settings Sample.locked) = true
  /\ aspectRatio (settings (changeAspectRatio Sample.locked))
     <> aspectRatio (settings Sample.locked)
  /\ playbackSpeed (settings (changeSpeed Sample.locked))
     <> playbackSpeed (settings Sample.locked).
Proof.
  split; [ reflexivity | split ].
  - vm_compute. discriminate.
  - apply float_neq; reflexivity.
Qed.

(** C1, amended.  While the lock flag is set, [handleSeek] returns the state
    it was given, and the seek bar, the speed button and the aspect-ratio
    button are not rendered: a user action on any of the three leaves the
    whole state as it is. *)
Theorem locked_player_ignores (st : State) (value : float) :
  isLocked (settings st) = true ->
  handleSeek value st = st
  /\ rendered st SeekBar = false
  /\ rendered st SpeedButton = false
  /\ rendered st AspectButton = false
  /\ act (InputSeek value) st = st
  /\ act ClickSpeed st = st
  /\ act ClickAspect st = st.
Proof.
  intros Hlocked. unfold act, handleSeek. cbn [target rendered].
  rewrite Hlocked. cbn [negb]. repeat split; reflexivity.
Qed.

Lemma locked_player_ignores_witness :
  handleSeek 50%float Sample.locked = Sample.locked
  /\ rendered Sample.locked SeekBar = false
  /\ rendered Sample.locked SpeedButton = false
  /\ rendered Sample.locked AspectButton = false
  /\ act (InputSeek 50%float) Sample.locked = Sample.locked
  /\ act ClickSpeed Sample.locked = Sample.locked
  /\ act ClickAspect Sample.locked = Sample.locked.
Proof.
  apply (locked_player_ignores Sample.locked 50%float). reflexivity.
Defined.

End Lock.

(** ** Binding an entry *)

Section Binding.

Import Player.

Lemma settings_videoLoadEffect (video : VideoFile.t) (r : Media.PlayResult) (st : State) :
  settings (videoLoadEffect video r st) = settings st.
Proof. unfold videoLoadEffect. repeat case_match; reflexivity. Qed.

Lemma videoRef_step (e : Event) (st : State) :
  is_Some (videoRef st) -> is_Some (videoRef (step e st)).
Proof.
  intros [el Hel].
  destruct e as [a| | | | | | |video r]; cbn [step].
  - unfold act. destruct (rendered st (target a)); [ | eauto ].
    destruct a; cbn [handler reaches_surface];
      unfold togglePlay, changeSpeed, changeAspectRatio, handleSeek,
        toggleLock, toggleMute, handleVolume, handleBrightness,
        resetControlsTimer;
      rewrite ?Hel; repeat case_match; cbn; eauto.
  - unfold controlsTimeout_fired. repeat case_match; cbn; eauto.
  - rewrite Hel. cbn. eauto.
  - unfold handleProgress. rewrite Hel. cbn. eauto.
  - unfold handleLoadedMetadata. rewrite Hel. case_match; cbn; eauto.
  - cbn. eauto.
  - cbn. eauto.
  - unfold videoLoadEffect. rewrite Hel. destruct r; cbn; eauto.
Qed.

Lemma videoRef_reachable (st : State) :
  reachable st -> is_Some (videoRef st).
Proof.
  induction 1 as [video r|e st _ IH].
  - destruct r; cbn; eauto.
  - now apply videoRef_step.
Qed.

(** C3.  The video load effect leaves [error] null whatever it was.  In a
    mounted player (every state a player view reaches has its element
    attached) it asks the element, in this order, to pause, to take the
    entry's locator, to load and to play, which leaves the playback position
    at zero; and when the promise of that [play()] is rejected the state has
    [isPlaying] false and [error] still null. *)
Theorem bind_clears_error_and_plays
  (video : VideoFile.t) (r : Media.PlayResult) (st : State) :
  error (videoLoadEffect video r st) = None
  /\ (reachable st -> is_Some (videoRef st))
  /\ (forall el : Media.t,
        videoRef st = Some el ->
        exists el' : Media.t,
          videoRef (videoLoadEffect video r st) = Some el'
          /\ Media.calls el'
             = (Media.calls el
                ++ [Media.Pause; Media.SetSrc (VideoFile.url video);
                    Media.Load; Media.Play])%list
          /\ Media.src el' = VideoFile.url video
          /\ Media.currentTime el' = 0%float
          /\ (r = Media.Rejected ->
              isPlaying (videoLoadEffect video r st) = false
              /\ error (videoLoadEffect video r st) = None)).
Proof.
  split; [ | split ].
  - unfold videoLoadEffect. repeat case_match; reflexivity.
  - apply videoRef_reachable.
  - intros el Hel. unfold videoLoadEffect. rewrite Hel.
    exists (Media.play r (Media.load
              (Media.set_src (VideoFile.url video) (Media.pause el)))).
    repeat split.
    + destruct r; reflexivity.
    + cbn. now rewrite <- !app_assoc.
    + now subst r.
    + now subst r.
Qed.

Lemma bind_clears_error_and_plays_witness :
  exists el' : Media.t,
    videoRef (videoLoadEffect Sample.video_b Media.Rejected
                (handleVideoError Sample.playing)) = Some el'
    /\ Media.currentTime el' = 0%float
    /\ isPlaying (videoLoadEffect Sample.video_b Media.Rejected
                    (handleVideoError Sample.playing)) = false
    /\ error (videoLoadEffect Sample.video_b Media.Rejected
                (handleVideoError Sample.playing)) = None.
Proof.
  destruct (bind_clears_error_and_plays Sample.video_b Media.Rejected
              (handleVideoError Sample.playing)) as (_ & Hattached & Hbind).
  destruct (Hattached (reachable_step MediaError _ reachable_playing))
    as [el Hel].
  destruct (Hbind el Hel) as (el' & Href & _ & _ & Htime & Hrejected).
  exists el'. destruct (Hrejected eq_refl) as (Hpaused & Herror).
  repeat split; assumption.
Defined.

End Binding.

(** ** The root controller *)

Section Navigation.

Import App.

Lemma index_in_bounds_next (s : State) :
  index_in_bounds s -> index_in_bounds (handleNextVideo s).
Proof.
  unfold index_in_bounds, handleNextVideo.
  destruct (currentVideoIndex s) as [i|] eqn:E; [ | now rewrite E ].
  destruct (Z.ltb_spec i (Js.length (videos s) - 1)); cbn.
  - lia.
  - now rewrite E.
Qed.

Lemma index_in_bounds_prev (s : State) :
  index_in_bounds s -> index_in_bounds (handlePrevVideo s).
Proof.
  unfold index_in_bounds, handlePrevVideo.
  destruct (currentVideoIndex s) as [i|] eqn:E; [ | now rewrite E ].
  destruct (Z.gtb_spec i 0); cbn.
  - lia.
  - now rewrite E.
Qed.

(** C8.  With the current index at the last position [handleNextVideo]
    returns the state it was given (and [hasNext] is false), with the
    current index at position zero [handlePrevVideo] does (and [hasPrev] is
    false); and neither handler takes an index that is within the bounds of
    the list out of them. *)
Theorem navigation_stops_at_the_ends (s : State) :
  (currentVideoIndex s = Some (Js.length (videos s) - 1) ->
   handleNextVideo s = s /\ hasNext s = false)
  /\ (currentVideoIndex s = Some 0 ->
      handlePrevVideo s = s /\ hasPrev s = false)
  /\ (index_in_bounds s ->
      index_in_bounds (handleNextVideo s)
      /\ index_in_bounds (handlePrevVideo s)).
Proof.
  split; [ | split ].
  - intros E. unfold handleNextVideo, hasNext. rewrite E.
    now rewrite Z.ltb_irrefl.
  - intros E. unfold handlePrevVideo, hasPrev. now rewrite E.
  - intros H. split.
    + now apply index_in_bounds_next.
    + now apply index_in_bounds_prev.
Qed.

Lemma navigation_stops_at_the_ends_witness :
  (handleNextVideo (Sample.two_videos (Some 1)) = Sample.two_videos (Some 1)
   /\ hasNext (Sample.two_videos (Some 1)) = false)
  /\ (handlePrevVideo (Sample.two_videos (Some 0)) = Sample.two_videos (Some 0)
      /\ hasPrev (Sample.two_videos (Some 0)) = false)
  /\ index_in_bounds (handleNextVideo (Sample.two_videos (Some 0))).
Proof.
  split; [ | split ].
  - apply (navigation_stops_at_the_ends (Sample.two_videos (Some 1))).
    reflexivity.
  - apply (navigation_stops_at_the_ends (Sample.two_videos (Some 0))).
    reflexivity.
  - apply (navigation_stops_at_the_ends (Sample.two_videos (Some 0))).
    vm_compute. split; congruence.
Defined.

End Navigation.

(** ** The library view *)

Section LibraryFacts.

Import Library.

(** *** Folder selection *)

Lemma map_newVideo_admitted (o : Oracle) (videoFiles : list File.t) (n : nat) :
  Forall2 admitted_as videoFiles (map_newVideo o n videoFiles).
Proof.
  revert n. induction videoFiles as [|file rest IH]; intros n; cbn.
  - constructor.
  - constructor; [ | apply IH ]. unfold admitted_as. cbn. tauto.
Qed.

Lemma map_newVideo_length (o : Oracle) (videoFiles : list File.t) (n : nat) :
  List.length (map_newVideo o n videoFiles) = List.length videoFiles.
Proof.
  revert n. induction videoFiles as [|file rest IH]; intros n; cbn;
    [ reflexivity | now rewrite IH ].
Qed.

Lemma map_newVideo_ids (o : Oracle) (videoFiles : list File.t) (n : nat) :
  List.map VideoFile.id (map_newVideo o n videoFiles)
  = List.map (fun k => Js.substr 2 9 (random36 o k))
      (seq n (List.length videoFiles)).
Proof.
  revert n. induction videoFiles as [|file rest IH]; intros n; cbn;
    [ reflexivity | now rewrite IH ].
Qed.

Lemma Forall2_In_left {A B : Type} (R : A -> B -> Prop) (l : list A) (l' : list B) :
  Forall2 R l l' -> forall x, In x l -> exists y, In y l' /\ R x y.
Proof.
  induction 1 as [|x y l l' Hxy _ IH]; intros z Hz; [ destruct Hz | ].
  destruct Hz as [<-|Hz].
  - exists y. split; [ now left | exact Hxy ].
  - destruct (IH z Hz) as (w & Hw & Hr). exists w. split; [ now right | exact Hr ].
Qed.

Lemma Forall2_In_right {A B : Type} (R : A -> B -> Prop) (l : list A) (l' : list B) :
  Forall2 R l l' -> forall y, In y l' -> exists x, In x l /\ R x y.
Proof.
  induction 1 as [|x y l l' Hxy _ IH]; intros z Hz; [ destruct Hz | ].
  destruct Hz as [<-|Hz].
  - exists x. split; [ now left | exact Hxy ].
  - destruct (IH z Hz) as (w & Hw & Hr). exists w. split; [ now right | exact Hr ].
Qed.

(** C5.  [handleFolderSelect] hands [onAddVideos] one entry for each file
    of the batch whose [type] starts with [video/], in the order of the
    batch, and nothing else: a file is behind some entry exactly when its
    type has that prefix, and every entry has such a type. *)
Theorem folder_select_admits_videos
  (o : Oracle) (created : nat) (files : list File.t) :
  exists newVideos : list VideoFile.t,
    handleFolderSelect o created (Some files) = Some newVideos
    /\ Forall2 admitted_as
         (List.filter (fun file => Js.startsWith (File.type file) "video/") files)
         newVideos
    /\ (forall file : File.t,
          In file files ->
          Js.startsWith (File.type file) "video/" = true ->
          exists v, In v newVideos /\ admitted_as file v)
    /\ (forall v : VideoFile.t,
          In v newVideos ->
          Js.startsWith (VideoFile.type v) "video/" = true
          /\ exists file, In file files /\ admitted_as file v)
    /\ (forall file : File.t,
          In file files ->
          Js.startsWith (File.type file) "video/" = false ->
          forall v, In v newVideos -> VideoFile.type v <> File.type file).
Proof.
  exists (map_newVideo o created (List.filter is_video files)).
  pose proof (map_newVideo_admitted o (List.filter is_video files) created) as HF.
  split; [ reflexivity | split; [ exact HF | split; [ | split ] ] ].
  - intros file Hin Hvideo.
    apply (Forall2_In_left _ _ _ HF). apply filter_In. now split.
  - intros v Hv.
    destruct (Forall2_In_right _ _ _ HF v Hv) as (file & Hfile & Hadm).
    apply filter_In in Hfile as [Hfile Hvideo].
    split; [ | now exists file ].
    destruct Hadm as (_ & -> & _). exact Hvideo.
  - intros file _ Hnot v Hv E.
    destruct (Forall2_In_right _ _ _ HF v Hv) as (file' & Hfile' & Hadm).
    apply filter_In in Hfile' as [_ Hvideo].
    destruct Hadm as (_ & Htype & _). unfold is_video in Hvideo.
    rewrite <- Htype, E in Hvideo. congruence.
Qed.

Lemma folder_select_admits_videos_witness :
  exists newVideos : list VideoFile.t,
    handleFolderSelect Sample.counting 0
      (Some [Sample.file_a; Sample.file_notes; Sample.file_b]) = Some newVideos
    /\ (exists v, In v newVideos /\ admitted_as Sample.file_b v)
    /\ (forall v, In v newVideos ->
        VideoFile.type v <> File.type Sample.file_notes).
Proof.
  destruct (folder_select_admits_videos Sample.counting 0
              [Sample.file_a; Sample.file_notes; Sample.file_b])
    as (newVideos & Hcall & _ & Hkept & _ & Hdropped).
  exists newVideos. split; [ exact Hcall | split ].
  - apply Hkept; [ cbn; tauto | reflexivity ].
  - apply Hdropped; [ cbn; tauto | reflexivity ].
Defined.

(** *** Grouping by folder name *)

Lemma group_video_inr (group group' : gmap string (list VideoFile.t)) (video : VideoFile.t) :
  group_video group video = inr group' ->
  group' = <[VideoFile.folderName video :=
               (default [] (group !! VideoFile.folderName video) ++ [video])%list]> group.
Proof.
  unfold group_video, get.
  destruct (group !! VideoFile.folderName video) as [l|] eqn:E.
  - rewrite E. now intros [= <-].
  - case_bool_decide as Hk.
    + rewrite E. discriminate.
    + rewrite lookup_insert_eq. intros [= <-]. now rewrite insert_insert_eq.
Qed.

Lemma group_video_own (group : gmap string (list VideoFile.t)) (video : VideoFile.t) :
  ~ In (VideoFile.folderName video) object_prototype_keys ->
  exists group', group_video group video = inr group'.
Proof.
  intros Hk. unfold group_video, get.
  destruct (group !! VideoFile.folderName video) as [l|] eqn:E.
  - rewrite E. eauto.
  - rewrite bool_decide_eq_false_2 by (now rewrite list_elem_of_In).
    rewrite lookup_insert_eq. eauto.
Qed.

Lemma group_video_inherited (group : gmap string (list VideoFile.t)) (video : VideoFile.t) :
  group !! VideoFile.folderName video = None ->
  In (VideoFile.folderName video) object_prototype_keys ->
  group_video group video = inl TypeError.
Proof.
  intros E Hk. unfold group_video, get. rewrite E.
  rewrite bool_decide_eq_true_2 by (now rewrite list_elem_of_In).
  now rewrite E.
Qed.

Lemma forEach_group_lookup (videos : list VideoFile.t)
  (group result : gmap string (list VideoFile.t)) (k : string) :
  forEach_group videos group = inr result ->
  result !! k =
    match with_folder k videos with
    | [] => group !! k
    | l => Some (default [] (group !! k) ++ l)%list
    end.
Proof.
  revert group. induction videos as [|video rest IH]; intros group; cbn.
  - now intros [= <-].
  - destruct (group_video group video) as [e|group'] eqn:Hstep; [ discriminate | ].
    intros Hrest. apply group_video_inr in Hstep. subst group'.
    rewrite (IH _ Hrest). unfold with_folder. cbn [List.filter].
    destruct (String.eqb_spec (VideoFile.folderName video) k) as [->|Hne].
    + rewrite lookup_insert_eq. cbn [default].
      destruct (List.filter _ rest); [ reflexivity | ].
      unfold id. now rewrite <- app_assoc.
    + now rewrite lookup_insert_ne.
Qed.

(** When the memo yields a grouping, the group under a key is the list of
    the entries with that folder name, and there is no empty group. *)
Lemma folders_lookup (videos : list VideoFile.t)
  (group : gmap string (list VideoFile.t)) (k : string) :
  folders videos = inr group ->
  group !! k =
    match with_folder k videos with
    | [] => None
    | l => Some l
    end.
Proof.
  intros H. rewrite (forEach_group_lookup _ _ _ k H).
  rewrite lookup_empty. now destruct (with_folder k videos).
Qed.

Lemma folders_yields (videos : list VideoFile.t) :
  (forall v, In v videos -> ~ In (VideoFile.folderName v) object_prototype_keys) ->
  exists group, folders videos = inr group.
Proof.
  unfold folders. generalize (∅ : gmap string (list VideoFile.t)).
  induction videos as [|video rest IH]; intros group Hok; cbn.
  - eauto.
  - destruct (group_video_own group video) as [group' ->].
    + apply Hok. now left.
    + apply IH. intros v Hv. apply Hok. now right.
Qed.

(** When every folder name is a key the object does not inherit, the memo
    yields a grouping, and it is a partition of the list: an entry is in the
    group under [k] exactly when it is in the list and its folder name is
    [k], so it is in the group under its folder name and in no other. *)
Theorem folders_partition (videos : list VideoFile.t) :
  (forall v, In v videos -> ~ In (VideoFile.folderName v) object_prototype_keys) ->
  exists group : gmap string (list VideoFile.t),
    folders videos = inr group
    /\ (forall k l, group !! k = Some l -> l = with_folder k videos)
    /\ (forall k l v, group !! k = Some l ->
          (In v l <-> In v videos /\ VideoFile.folderName v = k))
    /\ (forall v, In v videos ->
          exists l, group !! VideoFile.folderName v = Some l /\ In v l).
Proof.
  intros Hok. destruct (folders_yields videos Hok) as [group Hgroup].
  exists group. split; [ exact Hgroup | ].
  assert (Hl : forall k l, group !! k = Some l -> l = with_folder k videos).
  { intros k l. rewrite (folders_lookup _ _ k Hgroup).
    destruct (with_folder k videos); [ discriminate | now intros [= <-] ]. }
  split; [ exact Hl | split ].
  - intros k l v Hk. rewrite (Hl k l Hk). unfold with_folder.
    rewrite filter_In. now rewrite String.eqb_eq.
  - intros v Hv. rewrite (folders_lookup _ _ _ Hgroup).
    assert (Hin : In v (with_folder (VideoFile.folderName v) videos)).
    { apply filter_In. split; [ exact Hv | apply String.eqb_refl ]. }
    destruct (with_folder (VideoFile.folderName v) videos) as [|x l];
      [ destruct Hin | eauto ].
Qed.

Lemma folders_partition_witness :
  exists group : gmap string (list VideoFile.t),
    folders [Sample.video_a; Sample.video_b] = inr group
    /\ (forall k l, group !! k = Some l ->
          l = with_folder k [Sample.video_a; Sample.video_b])
    /\ (forall k l v, group !! k = Some l ->
          (In v l <->
           In v [Sample.video_a; Sample.video_b] /\ VideoFile.folderName v = k))
    /\ (forall v, In v [Sample.video_a; Sample.video_b] ->
          exists l, group !! VideoFile.folderName v = Some l /\ In v l).
Proof.
  apply (folders_partition [Sample.video_a; Sample.video_b]).
  intros v [<-|[<-|[]]] H; vm_compute in H;
    repeat (destruct H as [H|H]; [ discriminate H | ]); exact H.
Defined.

(** C6 fails on an entry whose folder is named like an inherited property:
    [group["constructor"]] is the inherited function, the folder gets no
    array, and [push] throws. *)
Lemma folders_throws_on_inherited_name :
  VideoFile.folderName Sample.video_c = "constructor"
  /\ handleFolderSelect Sample.counting 0 (Some [Sample.file_c])
     = Some [Sample.video_c]
  /\ folders [Sample.video_c] = inl TypeError.
Proof. repeat split. Qed.

(** *** Selecting an entry *)

Lemma findIndexFrom_found {A : Type} (p : A -> bool) (l : list A) (i : Z) :
  (exists x, In x l /\ p x = true) ->
  exists (n : nat) (x : A),
    l !! n = Some x /\ p x = true
    /\ Js.findIndexFrom p l i = i + Z.of_nat n.
Proof.
  revert i. induction l as [|y l IH]; intros i (x & Hin & Hp); [ destruct Hin | ].
  cbn [Js.findIndexFrom]. destruct (p y) eqn:Hy.
  - exists 0%nat, y. cbn. repeat split; [ exact Hy | lia ].
  - destruct Hin as [->|Hin]; [ congruence | ].
    destruct (IH (i + 1) (ex_intro _ x (conj Hin Hp))) as (n & z & Hn & Hz & E).
    exists (S n), z. cbn. repeat split; [ exact Hn | exact Hz | lia ].
Qed.

Lemma In_lookup {A : Type} (l : list A) (x : A) :
  In x l -> exists n : nat, l !! n = Some x.
Proof.
  intros H. apply list_elem_of_In in H. now apply list_elem_of_lookup in H.
Qed.

Lemma unique_id_position (videos : list VideoFile.t) (n m : nat) (v w : VideoFile.t) :
  NoDup (List.map VideoFile.id videos) ->
  videos !! n = Some v -> videos !! m = Some w ->
  VideoFile.id v = VideoFile.id w -> n = m.
Proof.
  intros Hnd Hn Hm E.
  apply (NoDup_lookup (List.map VideoFile.id videos) n m (VideoFile.id v) Hnd).
  - change (List.map VideoFile.id videos) with (VideoFile.id <$> videos).
    now rewrite list_lookup_fmap, Hn.
  - change (List.map VideoFile.id videos) with (VideoFile.id <$> videos).
    now rewrite list_lookup_fmap, Hm, E.
Qed.

(** The click's lookup finds an entry of the list with the identifier of
    the clicked one, whether or not identifiers repeat. *)
Lemma globalIndex_found (videos : list VideoFile.t) (video : VideoFile.t) :
  In video videos ->
  exists (n : nat) (v : VideoFile.t),
    videos !! n = Some v /\ VideoFile.id v = VideoFile.id video
    /\ globalIndex videos video = Z.of_nat n.
Proof.
  intros Hin.
  destruct (findIndexFrom_found
              (fun v => String.eqb (VideoFile.id v) (VideoFile.id video)) videos 0)
    as (n & v & Hn & Hv & E).
  - exists video. split; [ exact Hin | apply String.eqb_refl ].
  - exists n, v. apply String.eqb_eq in Hv. unfold globalIndex, Js.findIndex.
    repeat split; [ exact Hn | exact Hv | lia ].
Qed.

Lemma at_index_of_nat {A : Type} (l : list A) (n : nat) :
  Js.at_index l (Z.of_nat n) = l !! n.
Proof.
  unfold Js.at_index. destruct (Z.ltb_spec (Z.of_nat n) 0); [ lia | ].
  now rewrite Nat2Z.id.
Qed.

Lemma at_index_Some {A : Type} (l : list A) (i : Z) (x : A) :
  Js.at_index l i = Some x -> 0 <= i < Js.length l /\ l !! Z.to_nat i = Some x.
Proof.
  unfold Js.at_index, Js.length. destruct (Z.ltb_spec i 0); [ discriminate | ].
  intros Hx. split; [ | exact Hx ]. apply lookup_lt_Some in Hx. lia.
Qed.

Lemma get_own (group : gmap string (list VideoFile.t)) (k : string)
  (l : list VideoFile.t) :
  get group k = OwnArray l -> group !! k = Some l.
Proof.
  unfold get. destruct (group !! k); [ congruence | ].
  now case_bool_decide.
Qed.

(** The entries the folder view shows are entries of the list. *)
Lemma filteredVideos_shown (videos shown : list VideoFile.t)
  (group : gmap string (list VideoFile.t)) (lib : State) (video : VideoFile.t) :
  folders videos = inr group ->
  filteredVideos group lib = OwnArray shown ->
  In video shown ->
  In video videos /\ selectedFolderName lib = Some (VideoFile.folderName video).
Proof.
  intros Hgroup Hshown Hin. unfold filteredVideos in Hshown.
  destruct (Js.truthy_string (selectedFolderName lib)) eqn:T;
    [ | injection Hshown as <-; destruct Hin ].
  destruct (selectedFolderName lib) as [k|]; [ | discriminate T ].
  change (default EmptyString (Some k)) with k in Hshown.
  apply get_own in Hshown. rewrite (folders_lookup _ _ k Hgroup) in Hshown.
  destruct (with_folder k videos) as [|x l] eqn:E; [ discriminate | ].
  injection Hshown as <-. rewrite <- E in Hin.
  apply filter_In in Hin as [Hv Hk]. apply String.eqb_eq in Hk.
  now subst k.
Qed.

(** C7.  When the identifiers of the list are unique, a click on an entry
    shown in the folder view passes to [onPlayVideo] the one position of
    the list that holds that entry, and the root controller then plays
    it. *)
Theorem click_signals_position
  (a : App.State) (group : gmap string (list VideoFile.t)) (lib : State)
  (shown : list VideoFile.t) (video : VideoFile.t) :
  NoDup (List.map VideoFile.id (App.videos a)) ->
  folders (App.videos a) = inr group ->
  filteredVideos group lib = OwnArray shown ->
  In video shown ->
  Js.at_index (App.videos a) (globalIndex (App.videos a) video) = Some video
  /\ (forall j : Z,
        Js.at_index (App.videos a) j = Some video ->
        j = globalIndex (App.videos a) video)
  /\ App.currentVideoIndex
       (App.handlePlayVideo (globalIndex (App.videos a) video) a)
     = Some (globalIndex (App.videos a) video)
  /\ App.video (App.handlePlayVideo (globalIndex (App.videos a) video) a)
     = Some video.
Proof.
  intros Hnd Hgroup Hshown Hin.
  destruct (filteredVideos_shown _ _ _ _ _ Hgroup Hshown Hin) as [Hv _].
  destruct (globalIndex_found _ _ Hv) as (n & v & Hn & Hid & E).
  destruct (In_lookup _ _ Hv) as [m Hm].
  assert (n = m) by (eapply unique_id_position; eauto). subst m.
  assert (v = video) by congruence. subst v.
  assert (Hat : Js.at_index (App.videos a) (globalIndex (App.videos a) video)
                = Some video) by (now rewrite E, at_index_of_nat).
  split; [ exact Hat | split; [ | split; [ reflexivity | exact Hat ] ] ].
  intros j Hj. apply at_index_Some in Hj as [Hrange Hj].
  assert (Z.to_nat j = n) by (eapply unique_id_position; eauto). lia.
Qed.

Lemma click_signals_position_witness :
  App.video
    (App.handlePlayVideo
       (globalIndex (App.videos (Sample.two_videos None)) Sample.video_b)
       (Sample.two_videos None))
  = Some Sample.video_b.
Proof.
  apply (click_signals_position (Sample.two_videos None)
           {[ "Movies" := [Sample.video_a; Sample.video_b] ]}
           {| selectedFolderName := Some "Movies" |}
           [Sample.video_a; Sample.video_b] Sample.video_b).
  - apply (bool_decide_unpack _). vm_compute. exact I.
  - vm_compute. reflexivity.
  - vm_compute. reflexivity.
  - cbn. tauto.
Defined.

End LibraryFacts.

(** ** The application *)

Section SystemFacts.

Import System.

Local Arguments drawn_ids : simpl never.

Lemma drawn_ids_app (o : Library.Oracle) (n m : nat) :
  drawn_ids o (n + m)
  = (drawn_ids o n
     ++ List.map (fun k => Js.substr 2 9 (Library.random36 o k)) (seq n m))%list.
Proof. unfold drawn_ids. now rewrite seq_app, map_app. Qed.

Lemma hasNext_next (a : App.State) :
  App.hasNext a = true -> App.currentVideoIndex (App.handleNextVideo a) <> None.
Proof.
  unfold App.hasNext, App.handleNextVideo.
  destruct (App.currentVideoIndex a) as [i|]; [ | discriminate ].
  now intros ->.
Qed.

Lemma hasPrev_prev (a : App.State) :
  App.hasPrev a = true -> App.currentVideoIndex (App.handlePrevVideo a) <> None.
Proof.
  unfold App.hasPrev, App.handlePrevVideo.
  destruct (App.currentVideoIndex a) as [i|]; [ | discriminate ].
  now intros ->.
Qed.

Lemma invariant_step (o : Library.Oracle) (s s' : State) :
  invariant o s -> step o s s' -> invariant o s'.
Proof.
  intros (Hbounds & Hview & Hcount & Hids) Hstep.
  unfold invariant, consistent, ids in *.
  destruct Hstep as
    [ s files newVideos Hidx Hsel Hcall
    | s group folderName Hidx Hsel Hgroup Hkey
    | s Hidx Hsel
    | s group shown video bound r Hidx Hsel Hgroup Hshown Hin Hbound
    | s p e Hp Hallowed
    | s p c Hp Hc Hrendered
    | s p bound r Hp Hrendered Hnext Hbound
    | s p bound r Hp Hrendered Hprev Hbound ]; cbn.
  - destruct files as [filesArray|]; [ | discriminate ].
    injection Hcall as <-.
    split; [ | split; [ | split ] ].
    + unfold App.index_in_bounds. cbn. now rewrite Hidx.
    + exact Hview.
    + now rewrite length_app, Hcount.
    + rewrite map_app, Hids, drawn_ids_app, map_newVideo_length.
      now rewrite map_newVideo_ids.
  - tauto.
  - tauto.
  - split; [ | split; [ now split | now split ] ].
    destruct (filteredVideos_shown _ _ _ _ _ Hgroup Hshown Hin) as [Hv _].
    destruct (globalIndex_found _ _ Hv) as (n & v & Hn & _ & ->).
    unfold App.index_in_bounds, Js.length. cbn.
    apply lookup_lt_Some in Hn. lia.
  - split; [ exact Hbounds | split; [ | now split ] ].
    split; [ | discriminate ].
    intros E. apply Hview in E. congruence.
  - split; [ exact I | split; [ now split | now split ] ].
  - split; [ now apply index_in_bounds_next | split; [ | split ] ].
    + split; [ | discriminate ]. intros E. now apply hasNext_next in Hnext.
    + unfold App.handleNextVideo. now repeat case_match.
    + unfold App.handleNextVideo. now repeat case_match.
  - split; [ now apply index_in_bounds_prev | split; [ | split ] ].
    + split; [ | discriminate ]. intros E. now apply hasPrev_prev in Hprev.
    + unfold App.handlePrevVideo. now repeat case_match.
    + unfold App.handlePrevVideo. now repeat case_match.
Qed.

Lemma invariant_reachable (o : Library.Oracle) (s : State) :
  reachable o s -> invariant o s.
Proof.
  induction 1 as [|s s' _ IH Hstep].
  - unfold invariant, consistent, ids. cbn. repeat split.
  - now apply (invariant_step o s s').
Qed.

(** *** The sample run *)

Lemma reachable_in_library : reachable Sample.counting Sample.in_library.
Proof.
  apply (reachable_step _ initial); [ apply reachable_initial | ].
  apply (step_select_storage Sample.counting initial
           (Some [Sample.file_a; Sample.file_notes; Sample.file_b])
           [Sample.video_a; Sample.video_b]); reflexivity.
Qed.

Lemma reachable_in_folder : reachable Sample.counting Sample.in_folder.
Proof.
  apply (reachable_step _ Sample.in_library); [ apply reachable_in_library | ].
  apply (step_open_folder Sample.counting Sample.in_library
           {[ "Movies" := [Sample.video_a; Sample.video_b] ]} "Movies");
    [ reflexivity | reflexivity | vm_compute; reflexivity
    | eexists; vm_compute; reflexivity ].
Qed.

Lemma reachable_in_player : reachable Sample.counting Sample.in_player.
Proof.
  apply (reachable_step _ Sample.in_player_started);
    [ | apply (step_player Sample.counting Sample.in_player_started
                 Sample.started (Player.Bind Sample.video_a Media.Fulfilled));
        reflexivity ].
  apply (reachable_step _ Sample.in_folder); [ apply reachable_in_folder | ].
  apply (step_play Sample.counting Sample.in_folder
           {[ "Movies" := [Sample.video_a; Sample.video_b] ]}
           [Sample.video_a; Sample.video_b] Sample.video_a Sample.video_a
           Media.Fulfilled);
    [ reflexivity | reflexivity | vm_compute; reflexivity
    | vm_compute; reflexivity | cbn; tauto | reflexivity ].
Qed.

Lemma reachable_sped_up : reachable Sample.counting Sample.sped_up.
Proof.
  apply (reachable_step _ Sample.in_player); [ apply reachable_in_player | ].
  apply (step_player Sample.counting Sample.in_player Sample.playing
           (Player.User Player.ClickSpeed)); [ reflexivity | exact I ].
Qed.

Lemma step_at_next : step Sample.counting Sample.sped_up Sample.at_next.
Proof.
  apply (step_next Sample.counting Sample.sped_up Sample.faster
           Sample.video_b Media.Fulfilled); reflexivity.
Qed.

(** *** Settings across a change of entry *)

(** C2, as the claim states it, fails.  In the sample run the speed button
    is pressed while the first entry plays; asking for the next entry binds
    the second one to the same player view, and its settings still hold the
    speed 1.25. *)
Lemma rebinding_keeps_settings_counterexample :
  reachable Sample.counting Sample.sped_up
  /\ step Sample.counting Sample.sped_up Sample.at_next
  /\ App.video (app Sample.sped_up) = Some Sample.video_a
  /\ App.video (app Sample.at_next) = Some Sample.video_b
  /\ Sample.video_a <> Sample.video_b
  /\ Player.settings <$> player Sample.at_next <> Some Player.defaultSettings.
Proof.
  split; [ apply reachable_sped_up | split; [ apply step_at_next | ] ].
  split; [ reflexivity | split; [ reflexivity | split ] ].
  - intros E. apply (f_equal VideoFile.name) in E. discriminate E.
  - intros E.
    apply (f_equal (from_option playbackSpeed 0%float)) in E.
    revert E. apply float_neq; reflexivity.
Qed.

(** C2, amended.  A player view that the step mounts starts from the
    default settings; a step that changes the current index under a player
    view that stays mounted (next, previous) binds the new entry and leaves
    the settings as they were. *)
Theorem settings_across_binding
  (o : Library.Oracle) (s s' : State) (p' : Player.State) :
  reachable o s ->
  step o s s' ->
  player s' = Some p' ->
  match player s with
  | None => Player.settings p' = Player.defaultSettings
  | Some p =>
      App.currentVideoIndex (app s') <> App.currentVideoIndex (app s) ->
      Player.settings p' = Player.settings p
  end.
Proof.
  intros Hreach Hstep Hp'.
  destruct (invariant_reachable o s Hreach) as (_ & Hview & _).
  unfold consistent in Hview.
  destruct Hstep as
    [ s files newVideos Hidx Hsel Hcall
    | s group folderName Hidx Hsel Hgroup Hkey
    | s Hidx Hsel
    | s group shown video bound r Hidx Hsel Hgroup Hshown Hin Hbound
    | s p e Hp Hallowed
    | s p c Hp Hc Hrendered
    | s p bound r Hp Hrendered Hnext Hbound
    | s p bound r Hp Hrendered Hprev Hbound ];
    cbn [player app] in Hp' |- *.
  - apply Hview in Hidx. congruence.
  - apply Hview in Hidx. congruence.
  - apply Hview in Hidx. congruence.
  - apply Hview in Hidx. rewrite Hidx. injection Hp' as <-.
    now rewrite settings_videoLoadEffect.
  - rewrite Hp. cbn. intros Hchanged. now destruct Hchanged.
  - discriminate.
  - rewrite Hp. intros _. injection Hp' as <-.
    now rewrite settings_videoLoadEffect.
  - rewrite Hp. intros _. injection Hp' as <-.
    now rewrite settings_videoLoadEffect.
Qed.

Lemma settings_across_binding_witness :
  Player.settings (Player.videoLoadEffect Sample.video_b Media.Fulfilled Sample.faster)
  = Player.settings Sample.faster.
Proof.
  apply (settings_across_binding Sample.counting Sample.sped_up Sample.at_next
           (Player.videoLoadEffect Sample.video_b Media.Fulfilled Sample.faster)
           reachable_sped_up step_at_next eq_refl).
  cbn. discriminate.
Defined.

(** *** Identifiers and the current index *)

Lemma reachable_twins : reachable Sample.repeating Sample.twins.
Proof.
  apply (reachable_step _ initial); [ apply reachable_initial | ].
  apply (step_select_storage Sample.repeating initial
           (Some [Sample.file_a; Sample.file_b])
           [Library.newVideo Sample.repeating 0 Sample.file_a;
            Library.newVideo Sample.repeating 1 Sample.file_b]); reflexivity.
Qed.

(** C9, as the claim states it, fails: nothing compares a new identifier
    with the ones in the list.  When the generator returns the same string
    for two files of one selection, the list holds two entries with one
    identifier. *)
Lemma repeated_draw_counterexample :
  reachable Sample.repeating Sample.twins
  /\ ids Sample.twins = ["4fzyo82mv"; "4fzyo82mv"]
  /\ ~ NoDup (ids Sample.twins).
Proof.
  split; [ apply reachable_twins | split; [ reflexivity | ] ].
  intros H. change (ids Sample.twins) with ["4fzyo82mv"; "4fzyo82mv"] in H.
  apply NoDup_cons in H as [Hin _]. apply Hin. constructor.
Qed.

(** C9, amended.  In every state the application reaches the current
    index, if set, is a position of the list, and the identifiers of the
    list are, in order, the ones the generator has drawn so far, one for
    each entry: they are unique exactly when its draws were. *)
Theorem reachable_index_and_ids (o : Library.Oracle) (s : State) :
  reachable o s ->
  App.index_in_bounds (app s)
  /\ created s = List.length (App.videos (app s))
  /\ ids s = drawn_ids o (created s)
  /\ (NoDup (ids s) <-> NoDup (drawn_ids o (created s))).
Proof.
  intros Hreach.
  destruct (invariant_reachable o s Hreach) as (Hbounds & _ & Hcount & Hids).
  repeat split; try assumption; now rewrite Hids.
Qed.

Lemma reachable_index_and_ids_witness :
  App.index_in_bounds (app Sample.at_next)
  /\ created Sample.at_next = List.length (App.videos (app Sample.at_next))
  /\ ids Sample.at_next = drawn_ids Sample.counting (created Sample.at_next)
  /\ (NoDup (ids Sample.at_next)
      <-> NoDup (drawn_ids Sample.counting (created Sample.at_next))).
Proof.
  apply (reachable_index_and_ids Sample.counting Sample.at_next).
  apply (reachable_step _ Sample.sped_up);
    [ apply reachable_sped_up | apply step_at_next ].
Defined.

End SystemFacts.

(** ** Paths, identifiers and sizes of the entries *)

Section EntryFacts.

Import Library Notions.

Lemma split_slash_cons (s : string) :
  exists h t, Js.split_slash s = h :: t.
Proof.
  induction s as [|c r (h & t & IH)]; cbn; [ eauto | ].
  destruct (Ascii.eqb c "/"%char); [ eauto | ]. rewrite IH. eauto.
Qed.

Lemma split_slash_no_slash (s : string) :
  no_slash s = true -> Js.split_slash s = [s].
Proof.
  induction s as [|c r IH]; cbn; [ reflexivity | ].
  destruct (Ascii.eqb c "/"%char); cbn; [ discriminate | ].
  intros H. now rewrite (IH H).
Qed.

Lemma split_slash_pieces (s : string) :
  Forall (fun piece => no_slash piece = true) (Js.split_slash s).
Proof.
  induction s as [|c r IH]; cbn.
  - now repeat constructor.
  - destruct (Ascii.eqb c "/"%char) eqn:E.
    + now constructor.
    + destruct (Js.split_slash r) as [|h t].
      * repeat constructor. cbn. now rewrite E.
      * inversion IH as [|? ? Hh Ht]; subst.
        constructor; [ | exact Ht ]. cbn. now rewrite E.
Qed.

Lemma split_slash_append (a b : string) :
  Js.split_slash (a ++ "/" ++ b)%string
  = (Js.split_slash a ++ Js.split_slash b)%list.
Proof.
  induction a as [|c r IH]; [ reflexivity | ].
  change (String c r ++ "/" ++ b)%string with (String c (r ++ "/" ++ b))%string.
  cbn [Js.split_slash]. rewrite IH.
  destruct (Ascii.eqb c "/"%char); [ reflexivity | ].
  destruct (split_slash_cons r) as (h & t & ->). reflexivity.
Qed.

Lemma concat_more (sep x y : string) (l : list string) :
  String.concat sep (x :: y :: l)
  = (x ++ sep ++ String.concat sep (y :: l))%string.
Proof. reflexivity. Qed.

(** Joining the pieces of [webkitRelativePath.split('/')] with slashes
    gives the path back, and no piece holds a slash. *)
Theorem split_slash_round_trip (s : string) :
  String.concat "/" (Js.split_slash s) = s
  /\ Forall (fun piece => no_slash piece = true) (Js.split_slash s)
  /\ Js.split_slash s <> [].
Proof.
  split; [ | split; [ apply split_slash_pieces | ] ].
  - induction s as [|c r IH]; [ reflexivity | ].
    cbn -[String.concat Ascii.eqb].
    destruct (Ascii.eqb_spec c "/"%char) as [->|_].
    + destruct (split_slash_cons r) as (h & t & E). rewrite E in *.
      rewrite concat_more, IH. reflexivity.
    + destruct (split_slash_cons r) as (h & t & E). rewrite E in *.
      destruct t as [|h' t]; [ now rewrite <- IH | ].
      rewrite concat_more. rewrite concat_more in IH. now rewrite <- IH.
  - destruct (split_slash_cons s) as (h & t & ->). discriminate.
Qed.

Lemma at_index_last_but_one {A : Type} (l : list A) (x y : A) :
  Js.at_index (l ++ [x; y]) (Js.length (l ++ [x; y]) - 2) = Some x.
Proof.
  unfold Js.at_index, Js.length. rewrite length_app. cbn [List.length].
  destruct (Z.ltb_spec (Z.of_nat (List.length l + 2) - 2) 0); [ lia | ].
  replace (Z.to_nat (Z.of_nat (List.length l + 2) - 2)) with (List.length l) by lia.
  rewrite lookup_app_r by lia. now rewrite Nat.sub_diag.
Qed.

(** The folder of an entry.  A relative path without a slash gives the
    fallback label; a path that ends in [dir/file] gives [dir], whatever
    stands before it; and the folder name never holds a slash. *)
Theorem folderName_of_path (dir file : string) :
  no_slash dir = true ->
  no_slash file = true ->
  folderName_of file = "Internal Storage"
  /\ folderName_of (dir ++ "/" ++ file)%string = dir
  /\ (forall above : string,
        folderName_of (above ++ "/" ++ dir ++ "/" ++ file)%string = dir)
  /\ (forall path : string, no_slash (folderName_of path) = true).
Proof.
  intros Hdir Hfile. split; [ | split; [ | split ] ].
  - unfold folderName_of. now rewrite (split_slash_no_slash _ Hfile).
  - unfold folderName_of. rewrite split_slash_append.
    rewrite (split_slash_no_slash _ Hdir), (split_slash_no_slash _ Hfile).
    reflexivity.
  - intros above. unfold folderName_of. rewrite !split_slash_append.
    rewrite (split_slash_no_slash _ Hdir), (split_slash_no_slash _ Hfile).
    change ([dir] ++ [file])%list with [dir; file].
    rewrite at_index_last_but_one.
    unfold Js.length. rewrite length_app. cbn [List.length].
    now destruct (Z.gtb_spec (Z.of_nat (List.length (Js.split_slash above) + 2)) 1); [ | lia ].
  - intros path. unfold folderName_of.
    destruct (Js.length (Js.split_slash path) >? 1); [ | reflexivity ].
    destruct (Js.at_index _ _) as [piece|] eqn:E; [ | reflexivity ].
    cbn [default from_option id]. unfold id.
    unfold Js.at_index in E. destruct (_ <? 0); [ discriminate | ].
    pose proof (split_slash_pieces path) as Hall.
    rewrite Forall_forall in Hall. apply Hall.
    eapply list_elem_of_lookup_2. exact E.
Qed.

Lemma folderName_of_path_witness :
  folderName_of "a.mp4" = "Internal Storage"
  /\ folderName_of "Movies/a.mp4" = "Movies"
  /\ folderName_of "DCIM/Camera/Movies/a.mp4" = "Movies".
Proof.
  destruct (folderName_of_path "Movies" "a.mp4" eq_refl eq_refl)
    as (Hnone & Hone & Hdeep & _).
  split; [ exact Hnone | split; [ exact Hone | exact (Hdeep "DCIM/Camera") ] ].
Defined.

Lemma substring_length (s : string) (n m : nat) :
  String.length (String.substring n m s) = Nat.min m (String.length s - n).
Proof.
  revert n m. induction s as [|c r IH]; intros n m.
  - destruct n, m; cbn; lia.
  - destruct n as [|n].
    + destruct m as [|m]; cbn; [ reflexivity | ]. rewrite IH. lia.
    + cbn. now rewrite IH.
Qed.

(** The identifier of a new entry is what [substr(2, 9)] leaves of the
    drawn string: its length is that of the draw less two, cut at nine, so
    an identifier has at most nine characters and is empty when the draw
    has no more than two (as [Math.random()] returning 0 gives). *)
Theorem new_id_length (o : Oracle) (n : nat) (file : File.t) :
  String.length (VideoFile.id (newVideo o n file))
  = Nat.min 9 (String.length (random36 o n) - 2)
  /\ (String.length (VideoFile.id (newVideo o n file)) <= 9)%nat
  /\ (VideoFile.id (newVideo o n file) = EmptyString
      <-> (String.length (random36 o n) <= 2)%nat).
Proof.
  change (VideoFile.id (newVideo o n file))
    with (String.substring 2 9 (random36 o n)).
  pose proof (substring_length (random36 o n) 2 9) as L.
  destruct (String.substring 2 9 (random36 o n)) as [|c r] eqn:E;
    cbn [String.length] in *.
  - split; [ exact L | split; [ lia | ] ]. split; [ lia | reflexivity ].
  - split; [ exact L | split; [ lia | ] ]. split; [ discriminate | lia ].
Qed.




End EntryFacts.

(** ** More on the library view and the root controller *)

Section SelectionFacts.

Import Library Notions.

Lemma findIndexFrom_cases {A : Type} (p : A -> bool) (l : list A) (i : Z) :
  (Js.findIndexFrom p l i = -1 /\ forall x, In x l -> p x = false)
  \/ (exists (n : nat) (x : A),
        Js.findIndexFrom p l i = i + Z.of_nat n
        /\ l !! n = Some x /\ p x = true
        /\ forall (m : nat) (y : A),
             (m < n)%nat -> l !! m = Some y -> p y = false).
Proof.
  revert i. induction l as [|a l IH]; intros i; cbn [Js.findIndexFrom].
  - left. split; [ reflexivity | intros x [] ].
  - destruct (p a) eqn:Ha.
    + right. exists 0%nat, a. repeat split; [ lia | exact Ha | ].
      intros m y Hm. lia.
    + destruct (IH (i + 1)) as [[E Hall]|(n & x & E & Hn & Hx & Hmin)].
      * left. split; [ exact E | ]. intros x [<-|Hx]; [ exact Ha | now apply Hall ].
      * right. exists (S n), x. repeat split; [ lia | exact Hn | exact Hx | ].
        intros [|m] y Hm Hy; [ now injection Hy as <- | ].
        apply (Hmin m y); [ lia | exact Hy ].
Qed.

(** The click's lookup, whether or not identifiers are unique: it yields
    -1 exactly when no entry of the list has the clicked identifier, and
    otherwise the first position whose entry has it. *)
Theorem globalIndex_first_match (videos : list VideoFile.t) (video : VideoFile.t) :
  (globalIndex videos video = -1
   <-> forall v, In v videos -> VideoFile.id v <> VideoFile.id video)
  /\ (forall (n : nat) (v : VideoFile.t),
        videos !! n = Some v ->
        VideoFile.id v = VideoFile.id video ->
        0 <= globalIndex videos video <= Z.of_nat n
        /\ exists w, Js.at_index videos (globalIndex videos video) = Some w
                     /\ VideoFile.id w = VideoFile.id video).
Proof.
  unfold globalIndex, Js.findIndex.
  destruct (findIndexFrom_cases
              (fun v => String.eqb (VideoFile.id v) (VideoFile.id video)) videos 0)
    as [[E Hall]|(k & x & E & Hk & Hx & Hmin)]; rewrite E.
  - split.
    + split; [ | reflexivity ]. intros _ v Hv Hid.
      specialize (Hall v Hv). cbn in Hall. apply String.eqb_neq in Hall.
      contradiction.
    + intros n v Hn Hid. exfalso.
      assert (Hv : In v videos).
      { apply list_elem_of_In. eapply list_elem_of_lookup_2. exact Hn. }
      specialize (Hall v Hv). cbn in Hall. apply String.eqb_neq in Hall.
      contradiction.
  - apply String.eqb_eq in Hx. split.
    + split; [ lia | ]. intros Hnone. exfalso.
      apply (Hnone x); [ | exact Hx ].
      apply list_elem_of_In. eapply list_elem_of_lookup_2. exact Hk.
    + intros n v Hn Hid. split.
      * destruct (Nat.le_gt_cases k n) as [Hle|Hlt]; [ lia | ].
        specialize (Hmin n v Hlt Hn). cbn in Hmin.
        apply String.eqb_neq in Hmin. contradiction.
      * exists x. split; [ | exact Hx ].
        change (0 + Z.of_nat k) with (Z.of_nat k). now rewrite at_index_of_nat.
Qed.

Lemma globalIndex_first_match_witness :
  0 <= globalIndex (App.videos (System.app Sample.twins))
         (Library.newVideo Sample.repeating 1 Sample.file_b) <= Z.of_nat 1
  /\ exists w,
       Js.at_index (App.videos (System.app Sample.twins))
         (globalIndex (App.videos (System.app Sample.twins))
            (Library.newVideo Sample.repeating 1 Sample.file_b)) = Some w
       /\ VideoFile.id w
          = VideoFile.id (Library.newVideo Sample.repeating 1 Sample.file_b).
Proof.
  exact (proj2 (globalIndex_first_match (App.videos (System.app Sample.twins))
                  (Library.newVideo Sample.repeating 1 Sample.file_b))
           1%nat (Library.newVideo Sample.repeating 1 Sample.file_b)
           eq_refl eq_refl).
Defined.

(** *** When the grouping throws *)

Lemma forEach_group_throws (videos : list VideoFile.t)
  (group : gmap string (list VideoFile.t)) :
  (forall k, In k object_prototype_keys -> group !! k = None) ->
  (exists v, In v videos /\ In (VideoFile.folderName v) object_prototype_keys) ->
  forEach_group videos group = inl TypeError.
Proof.
  revert group. induction videos as [|video rest IH]; intros group Hfree (v & Hv & Hk).
  - destruct Hv.
  - cbn [forEach_group].
    destruct (In_dec string_dec (VideoFile.folderName video) object_prototype_keys)
      as [Hin|Hout].
    + now rewrite (group_video_inherited group video (Hfree _ Hin) Hin).
    + destruct (group_video_own group video Hout) as [group' Hstep].
      rewrite Hstep. apply group_video_inr in Hstep. subst group'.
      apply IH.
      * intros k Hkeys. rewrite lookup_insert_ne; [ now apply Hfree | ].
        intros E. apply Hout. now rewrite E.
      * destruct Hv as [<-|Hv]; [ contradiction | eauto ].
Qed.

(** The memo throws exactly for the lists that hold an entry whose folder
    name is a property name plain objects inherit; for every other list,
    the empty one included, it yields a grouping, with no group empty and
    one group for each folder name of the list. *)
Theorem folders_throws_exactly (videos : list VideoFile.t) :
  (folders videos = inl TypeError
   <-> exists v, In v videos /\ In (VideoFile.folderName v) object_prototype_keys)
  /\ ((forall v, In v videos -> ~ In (VideoFile.folderName v) object_prototype_keys)
      <-> exists group, folders videos = inr group)
  /\ (forall group, folders videos = inr group ->
        forall k, is_Some (group !! k)
                  <-> exists v, In v videos /\ VideoFile.folderName v = k)
  /\ folders [] = inr ∅.
Proof.
  assert (Hthrow : (exists v, In v videos
                     /\ In (VideoFile.folderName v) object_prototype_keys) ->
                   folders videos = inl TypeError).
  { apply forEach_group_throws. intros k _. apply lookup_empty. }
  assert (Hdec : (exists v, In v videos
                    /\ In (VideoFile.folderName v) object_prototype_keys)
                 \/ (forall v, In v videos ->
                       ~ In (VideoFile.folderName v) object_prototype_keys)).
  { clear Hthrow. induction videos as [|video rest [(v & Hv & Hk)|Hnone]].
    - right. intros v [].
    - left. exists v. split; [ now right | exact Hk ].
    - destruct (In_dec string_dec (VideoFile.folderName video) object_prototype_keys)
        as [Hin|Hout].
      + left. exists video. split; [ now left | exact Hin ].
      + right. intros v [<-|Hv]; [ exact Hout | now apply Hnone ]. }
  split; [ | split; [ | split; [ | reflexivity ] ] ].
  - split; [ | exact Hthrow ]. intros E.
    destruct Hdec as [Hex|Hnone]; [ exact Hex | ].
    destruct (folders_yields videos Hnone) as [group Hgroup]. congruence.
  - split; [ apply folders_yields | ]. intros [group Hgroup] v Hv Hk.
    rewrite Hthrow in Hgroup by eauto. discriminate.
  - intros group Hgroup k. rewrite (folders_lookup _ _ k Hgroup).
    unfold with_folder. split.
    + intros [l Hl].
      destruct (List.filter _ videos) as [|x l'] eqn:E; [ discriminate | ].
      assert (Hx : In x (List.filter
                 (fun v => String.eqb (VideoFile.folderName v) k) videos))
        by (rewrite E; now left).
      apply filter_In in Hx as [Hx Hk]. apply String.eqb_eq in Hk. eauto.
    + intros (v & Hv & Hk).
      assert (Hx : In v (List.filter
                 (fun v => String.eqb (VideoFile.folderName v) k) videos)).
      { apply filter_In. split; [ exact Hv | now apply String.eqb_eq ]. }
      destruct (List.filter _ videos); [ destruct Hx | eauto ].
Qed.

Lemma folders_throws_exactly_witness :
  folders [Sample.video_a; Sample.video_c; Sample.video_b] = inl TypeError.
Proof.
  apply (folders_throws_exactly [Sample.video_a; Sample.video_c; Sample.video_b]).
  exists Sample.video_c. split; [ cbn; tauto | cbn; tauto ].
Defined.

End SelectionFacts.

(** ** More on the player view *)

Section PlayerFacts.

Import Player Notions.

(** *** Lock mode *)

(** In a locked player the lock button is rendered and a press on it
    unlocks; every other user action leaves the state as it is, except that
    a click on the surface shows the controls and restarts their timer. *)
Theorem locked_player_inert (st : State) (a : Action) :
  isLocked (settings st) = true ->
  rendered st LockButton = true
  /\ isLocked (settings (act ClickLock st)) = false
  /\ (a <> ClickLock -> same_but_controls st (act a st))
  /\ (a <> ClickLock -> a <> ClickSurface -> act a st = st).
Proof.
  intros Hlocked. split; [ reflexivity | split; [ | split ] ].
  - cbn. now rewrite Hlocked.
  - intros Hlock. unfold same_but_controls, act.
    destruct a; cbn [target rendered reaches_surface handler];
      rewrite ?Hlocked; cbn [negb]; try reflexivity; try congruence.
    unfold togglePlay. now rewrite Hlocked.
  - intros Hlock Hsurface. unfold act.
    destruct a; cbn [target rendered reaches_surface handler];
      rewrite ?Hlocked; cbn [negb]; try reflexivity; try congruence.
    unfold togglePlay. now rewrite Hlocked.
Qed.

Lemma locked_player_inert_witness :
  isLocked (settings (act ClickLock Sample.locked)) = false
  /\ act (ClickVideo Media.Fulfilled) Sample.locked = Sample.locked
  /\ same_but_controls Sample.locked (act ClickSurface Sample.locked).
Proof.
  split; [ | split ].
  - apply (locked_player_inert Sample.locked ClickSurface). reflexivity.
  - apply (locked_player_inert Sample.locked (ClickVideo Media.Fulfilled));
      [ reflexivity | discriminate | discriminate ].
  - apply (locked_player_inert Sample.locked ClickSurface);
      [ reflexivity | discriminate ].
Defined.

(** *** Play and pause *)

(** [togglePlay] returns the state it was given while the player is locked
    or shows an error.  Otherwise it asks a playing element to pause and
    sets [isPlaying] to false, and asks a paused one to play: when that
    promise is fulfilled [isPlaying] is true and the element plays, and
    when it is rejected [isPlaying] stays as it was. *)
Theorem togglePlay_follows_element (r : Media.PlayResult) (st : State) :
  (isLocked (settings st) = true \/ Js.truthy_string (error st) = true ->
   togglePlay r st = st)
  /\ (videoRef st = None -> togglePlay r st = st)
  /\ (forall el : Media.t,
        isLocked (settings st) = false ->
        Js.truthy_string (error st) = false ->
        videoRef st = Some el ->
        exists el' : Media.t,
          videoRef (togglePlay r st) = Some el'
          /\ (Media.paused el = false ->
              Media.calls el' = (Media.calls el ++ [Media.Pause])%list
              /\ Media.paused el' = true
              /\ isPlaying (togglePlay r st) = false)
          /\ (Media.paused el = true ->
              Media.calls el' = (Media.calls el ++ [Media.Play])%list
              /\ (r = Media.Fulfilled ->
                  Media.paused el' = false
                  /\ isPlaying (togglePlay r st) = true)
              /\ (r = Media.Rejected ->
                  Media.paused el' = true
                  /\ isPlaying (togglePlay r st) = isPlaying st))).
Proof.
  split; [ | split ].
  - unfold togglePlay. intros [-> | H]; [ reflexivity | ].
    rewrite H. now rewrite orb_true_r.
  - unfold togglePlay. intros ->. now destruct (_ || _).
  - intros el Hunlocked Hfine Hel. unfold togglePlay.
    rewrite Hunlocked, Hfine, Hel. cbn [orb].
    destruct (Media.paused el) eqn:Hpaused.
    + exists (Media.play r el). split; [ now destruct r | ].
      split; [ discriminate | ]. intros _.
      split; [ reflexivity | ].
      split; intros ->; cbn; now rewrite ?Hpaused.
    + exists (Media.pause el). split; [ reflexivity | ].
      split; [ | discriminate ]. intros _. now repeat split.
Qed.

Lemma togglePlay_follows_element_witness :
  togglePlay Media.Fulfilled Sample.locked = Sample.locked
  /\ isPlaying (togglePlay Media.Fulfilled Sample.playing) = false.
Proof.
  pose proof (togglePlay_follows_element Media.Fulfilled Sample.locked)
    as (Hinert & _).
  pose proof (togglePlay_follows_element Media.Fulfilled Sample.playing)
    as (_ & _ & Htoggle).
  split.
  - apply Hinert. left. reflexivity.
  - destruct (videoRef Sample.playing) as [el|] eqn:Hel; [ | discriminate Hel ].
    destruct (Htoggle el eq_refl eq_refl eq_refl) as (el' & _ & Hpause & _).
    apply Hpause. injection Hel as <-. reflexivity.
Defined.

(** *** Seeking *)



(** *** The duration shown *)

Lemma duration_step (e : Event) (st : State) :
  PrimFloat.is_nan (duration st) = false ->
  PrimFloat.is_nan (duration (step e st)) = false.
Proof.
  intros H. destruct e as [a| | | | | | |video r]; cbn [step].
  - destruct a; unfold_handlers; repeat case_match; exact H.
  - unfold_handlers; repeat case_match; exact H.
  - exact H.
  - unfold_handlers; repeat case_match; exact H.
  - unfold handleLoadedMetadata.
    destruct (videoRef st) as [el|]; [ | reflexivity ].
    destruct (Js.truthy_number (Media.duration el)) eqn:T; [ | reflexivity ].
    cbn. unfold Js.truthy_number in T.
    now destruct (PrimFloat.is_nan (Media.duration el)).
  - exact H.
  - exact H.
  - unfold_handlers; repeat case_match; exact H.
Qed.

(** The [duration] state is never [NaN]: in every state a player view
    reaches it is the number zero it started with or a duration the
    element reported, since [onLoadedMetadata] stores zero for an unknown
    one; binding an entry does not reset it. *)
Theorem duration_is_a_number (st : State) :
  reachable st ->
  PrimFloat.is_nan (duration st) = false
  /\ (forall video r, duration (videoLoadEffect video r st) = duration st)
  /\ (forall el : Media.t,
        videoRef st = Some el ->
        PrimFloat.is_nan (Media.duration el) = true ->
        duration (handleLoadedMetadata st) = 0%float).
Proof.
  intros Hreach. split; [ | split ].
  - induction Hreach as [video r|e st _ IH].
    + unfold_handlers; repeat case_match; reflexivity.
    + now apply duration_step.
  - intros video r. unfold_handlers; repeat case_match; reflexivity.
  - intros el Hel Hnan. unfold handleLoadedMetadata, Js.truthy_number.
    now rewrite Hel, Hnan.
Qed.

Lemma duration_is_a_number_witness :
  PrimFloat.is_nan (duration (step LoadedMetadata Sample.playing)) = false
  /\ duration (handleLoadedMetadata Sample.playing) = 0%float.
Proof.
  split.
  - apply (duration_is_a_number (step LoadedMetadata Sample.playing)).
    apply reachable_step, reachable_playing.
  - pose proof (duration_is_a_number Sample.playing reachable_playing)
      as (_ & _ & Hzero).
    destruct (videoRef Sample.playing) as [el|] eqn:Hel; [ | discriminate Hel ].
    apply (Hzero el eq_refl). injection Hel as <-. reflexivity.
Defined.

(** *** Volume and speed *)

(** The mute button only ever sets the volume to 0 or to 1: a press at a
    volume other than zero mutes, and the next press sets the volume to 1
    whatever it was before the mute.  The element's volume follows. *)
Theorem mute_forgets_volume (st : State) :
  (PrimFloat.eqb (volume st) 0%float = false ->
   volume (toggleMute st) = 0%float
   /\ volume (toggleMute (toggleMute st)) = 1%float)
  /\ (PrimFloat.eqb (volume st) 0%float = true ->
      volume (toggleMute st) = 1%float)
  /\ (forall el : Media.t,
        videoRef st = Some el ->
        exists el' : Media.t,
          videoRef (toggleMute st) = Some el'
          /\ Media.volume el' = volume (toggleMute st)).
Proof.
  assert (Hvolume : forall st', volume (toggleMute st')
            = if PrimFloat.eqb (volume st') 0%float then 1%float else 0%float).
  { intros st'. unfold toggleMute. repeat case_match; reflexivity. }
  split; [ | split ].
  - intros H. rewrite !Hvolume, H. now split.
  - intros H. now rewrite Hvolume, H.
  - intros el Hel. unfold toggleMute. rewrite Hel.
    destruct (PrimFloat.eqb (volume st) 0%float); cbn; eauto.
Qed.

Lemma mute_forgets_volume_witness :
  volume (toggleMute (handleVolume 0.5%float Sample.playing)) = 0%float
  /\ volume (toggleMute (toggleMute (handleVolume 0.5%float Sample.playing)))
     = 1%float.
Proof.
  apply (mute_forgets_volume (handleVolume 0.5%float Sample.playing)).
  reflexivity.
Defined.

(** The volume slider always stores its value in the state.  It hands a
    value between 0 and 1 to the element; any other value the element
    refuses, so the element stays as it is and the two volumes differ. *)
Theorem volume_slider_in_range (v : float) (st : State) (el : Media.t) :
  videoRef st = Some el ->
  volume (handleVolume v st) = v
  /\ (PrimFloat.leb 0%float v && PrimFloat.leb v 1%float = true ->
      exists el' : Media.t,
        videoRef (handleVolume v st) = Some el'
        /\ Media.volume el' = v
        /\ Media.calls el' = (Media.calls el ++ [Media.SetVolume v])%list)
  /\ (PrimFloat.leb 0%float v && PrimFloat.leb v 1%float = false ->
      videoRef (handleVolume v st) = Some el).
Proof.
  intros Hel. unfold handleVolume, Media.set_volume. rewrite Hel.
  split; [ now destruct (_ && _) | split ]; intros ->.
  - cbn. eauto.
  - exact Hel.
Qed.

Lemma volume_slider_in_range_witness :
  volume (handleVolume 0.5%float Sample.playing) = 0.5%float
  /\ (exists el' : Media.t,
        videoRef (handleVolume 0.5%float Sample.playing) = Some el'
        /\ Media.volume el' = 0.5%float)
  /\ videoRef (handleVolume 2%float Sample.playing) = videoRef Sample.playing.
Proof.
  pose proof (volume_slider_in_range 0.5%float Sample.playing) as H.
  pose proof (volume_slider_in_range 2%float Sample.playing) as H2.
  destruct (videoRef Sample.playing) as [el|] eqn:Hel; [ | discriminate Hel ].
  destruct (H el eq_refl) as (Hstate & Hin & _).
  destruct (H2 el eq_refl) as (_ & _ & Hout).
  split; [ exact Hstate | split ].
  - destruct (Hin eq_refl) as (el' & Href & Hvolume & _). eauto.
  - apply Hout. reflexivity.
Defined.

(** [changeSpeed] hands the new speed to the element: after it the
    element's playback rate is the speed in the settings. *)
Theorem changeSpeed_sets_rate (st : State) (el : Media.t) :
  videoRef st = Some el ->
  exists el' : Media.t,
    videoRef (changeSpeed st) = Some el'
    /\ Media.playbackRate el' = playbackSpeed (settings (changeSpeed st))
    /\ Media.calls el'
       = (Media.calls el
          ++ [Media.SetPlaybackRate (playbackSpeed (settings (changeSpeed st)))])%list.
Proof.
  intros Hel. unfold changeSpeed, nextSpeedIndex, speeds_indexOf, Js.findIndex.
  rewrite Hel. unfold speeds. cbn [Js.findIndexFrom].
  repeat (destruct (PrimFloat.eqb _ (playbackSpeed (settings st)));
          [ cbn; eexists; repeat split | ]).
  cbn; eexists; repeat split.
Qed.

Lemma changeSpeed_sets_rate_witness :
  exists el' : Media.t,
    videoRef (changeSpeed Sample.playing) = Some el'
    /\ Media.playbackRate el' = 1.25%float.
Proof.
  pose proof (changeSpeed_sets_rate Sample.playing) as H.
  destruct (videoRef Sample.playing) as [el|] eqn:Hel; [ | discriminate Hel ].
  destruct (H el eq_refl) as (el' & Href & Hrate & _).
  exists el'. split; [ exact Href | ]. rewrite Hrate. reflexivity.
Defined.

(** *** Errors *)

(** Once an error is shown, no event other than the binding of an entry
    removes it: [error] stays set, a media error puts the same message
    there again, every other event leaves it untouched, and presses on the
    play button or the video are ignored. *)
Theorem error_stays (e : Event) (st : State) :
  not_bind e = true ->
  Js.truthy_string (error st) = true ->
  Js.truthy_string (error (step e st)) = true
  /\ (e <> MediaError -> error (step e st) = error st)
  /\ (forall r, act (ClickPlay r) st = st /\ act (ClickVideo r) st = st).
Proof.
  intros Hbind Htruthy. split; [ | split ].
  - destruct e as [a| | | | | | |video r]; cbn [step]; try discriminate Hbind;
      try destruct a;
      solve [ unfold_handlers; repeat case_match;
              first [ exact Htruthy | reflexivity ] ].
  - intros Hother.
    destruct e as [a| | | | | | |video r]; cbn [step]; try discriminate Hbind;
      try congruence; try destruct a;
      solve [ unfold_handlers; repeat case_match; reflexivity ].
  - intros r. unfold act, handler, togglePlay. cbn [target rendered reaches_surface].
    rewrite Htruthy, orb_true_r. now destruct (negb _).
Qed.

Lemma error_stays_witness :
  error (step (User (ClickPlay Media.Fulfilled)) (handleVideoError Sample.playing))
  = Some unplayable
  /\ act (ClickPlay Media.Fulfilled) (handleVideoError Sample.playing)
     = handleVideoError Sample.playing.
Proof.
  pose proof (error_stays (User (ClickPlay Media.Fulfilled))
                (handleVideoError Sample.playing) eq_refl eq_refl)
    as (_ & Hsame & Hignored).
  split.
  - rewrite Hsame; [ reflexivity | discriminate ].
  - apply Hignored.
Defined.

(** *** Requests to the element *)

Lemma step_requests (e : Event) (st : State) (el : Media.t) :
  not_bind e = true ->
  videoRef st = Some el ->
  exists (el' : Media.t) (requests : list Media.Call),
    videoRef (step e st) = Some el'
    /\ Media.calls el' = (Media.calls el ++ requests)%list
    /\ (List.length requests <= 1)%nat
    /\ forallb keeps_source requests = true
    /\ Media.src el' = Media.src el.
Proof.
  intros Hbind Hel.
  assert (Hdone : forall el' requests,
            Media.calls el' = (Media.calls el ++ requests)%list ->
            (List.length requests <= 1)%nat ->
            forallb keeps_source requests = true ->
            Media.src el' = Media.src el ->
            forall st', videoRef st' = Some el' ->
            exists el'' requests',
              videoRef st' = Some el''
              /\ Media.calls el'' = (Media.calls el ++ requests')%list
              /\ (List.length requests' <= 1)%nat
              /\ forallb keeps_source requests' = true
              /\ Media.src el'' = Media.src el).
  { intros el' requests H1 H2 H3 H4 st' H5. exists el', requests. tauto. }
  assert (Hsame : forall st', videoRef st' = Some el ->
            exists el'' requests',
              videoRef st' = Some el''
              /\ Media.calls el'' = (Media.calls el ++ requests')%list
              /\ (List.length requests' <= 1)%nat
              /\ forallb keeps_source requests' = true
              /\ Media.src el'' = Media.src el).
  { intros st' H. apply (Hdone el []); auto. now rewrite app_nil_r. }
  assert (Hone : forall el' c st',
            Media.calls el' = (Media.calls el ++ [c])%list ->
            keeps_source c = true ->
            Media.src el' = Media.src el ->
            videoRef st' = Some el' ->
            exists el'' requests',
              videoRef st' = Some el''
              /\ Media.calls el'' = (Media.calls el ++ requests')%list
              /\ (List.length requests' <= 1)%nat
              /\ forallb keeps_source requests' = true
              /\ Media.src el'' = Media.src el).
  { intros el' c st' H1 H2 H3 H4. apply (Hdone el' [c]); auto.
    cbn. now rewrite H2. }
  destruct e as [a| | | | | | |video r]; cbn [step]; try discriminate Hbind.
  - destruct a; unfold_handlers; rewrite ?Hel; repeat case_match;
      simplify_eq;
      first [ apply Hsame; assumption
            | eapply Hone; [ | | | reflexivity ]; reflexivity
            | apply Hsame; reflexivity ].
  - unfold_handlers; repeat case_match; apply Hsame; exact Hel.
  - rewrite Hel. eexists _, []. cbn. rewrite app_nil_r.
    repeat split; lia.
  - unfold_handlers; repeat case_match; apply Hsame; cbn; congruence.
  - unfold_handlers; repeat case_match; apply Hsame; cbn; congruence.
  - apply Hsame; exact Hel.
  - apply Hsame; exact Hel.
Qed.

(** An event other than the binding of an entry makes at most one request
    of the element, never a load and never a change of source: the element
    keeps the source it has. *)
Theorem only_binding_reloads (e : Event) (st : State) (el : Media.t) :
  not_bind e = true ->
  videoRef st = Some el ->
  exists (el' : Media.t) (requests : list Media.Call),
    videoRef (step e st) = Some el'
    /\ Media.calls el' = (Media.calls el ++ requests)%list
    /\ (List.length requests <= 1)%nat
    /\ forallb keeps_source requests = true
    /\ Media.src el' = Media.src el.
Proof. apply step_requests. Qed.

Lemma only_binding_reloads_witness :
  exists (el' : Media.t) (requests : list Media.Call),
    videoRef (step (User (ClickPlay Media.Fulfilled)) Sample.playing) = Some el'
    /\ (List.length requests <= 1)%nat
    /\ Media.src el' = VideoFile.url Sample.video_a.
Proof.
  pose proof (only_binding_reloads (User (ClickPlay Media.Fulfilled))
                Sample.playing) as H.
  destruct (videoRef Sample.playing) as [el|] eqn:Hel; [ | discriminate Hel ].
  destruct (H el eq_refl eq_refl)
    as (el' & requests & Href & _ & Hlen & _ & Hsrc).
  exists el', requests. split; [ exact Href | split; [ exact Hlen | ] ].
  rewrite Hsrc. injection Hel as <-. reflexivity.
Defined.

End PlayerFacts.

(** ** More on the application *)

Section ApplicationFacts.

Import System Notions.

(** *** The list of entries *)

Lemma at_index_app {A : Type} (l added : list A) (i : Z) (x : A) :
  Js.at_index l i = Some x -> Js.at_index (l ++ added) i = Some x.
Proof.
  unfold Js.at_index. destruct (i <? 0); [ discriminate | ].
  intros H. now apply lookup_app_l_Some.
Qed.

(** No step of the application removes, replaces or moves an entry: the
    list after the step is the list before it with the new entries at its
    end, so every position keeps its entry; and nothing is added while an
    entry is being played. *)
Theorem entries_only_appended (o : Library.Oracle) (s s' : State) :
  step o s s' ->
  exists added : list VideoFile.t,
    App.videos (app s') = (App.videos (app s) ++ added)%list
    /\ (forall (i : Z) (v : VideoFile.t),
          Js.at_index (App.videos (app s)) i = Some v ->
          Js.at_index (App.videos (app s')) i = Some v)
    /\ (App.currentVideoIndex (app s) <> None -> added = []).
Proof.
  intros Hstep.
  assert (Hsame : App.videos (app s') = App.videos (app s) ->
            exists added : list VideoFile.t,
              App.videos (app s') = (App.videos (app s) ++ added)%list
              /\ (forall (i : Z) (v : VideoFile.t),
                    Js.at_index (App.videos (app s)) i = Some v ->
                    Js.at_index (App.videos (app s')) i = Some v)
              /\ (App.currentVideoIndex (app s) <> None -> added = [])).
  { intros E. exists []. rewrite E, app_nil_r. now repeat split. }
  destruct Hstep as
    [ s files newVideos Hidx Hsel Hcall
    | s group folderName Hidx Hsel Hgroup Hkey
    | s Hidx Hsel
    | s group shown video bound r Hidx Hsel Hgroup Hshown Hin Hbound
    | s p e Hp Hallowed
    | s p c Hp Hc Hrendered
    | s p bound r Hp Hrendered Hnext Hbound
    | s p bound r Hp Hrendered Hprev Hbound ];
    try (apply Hsame; reflexivity).
  - exists newVideos. cbn. split; [ reflexivity | split ].
    + intros i v. apply at_index_app.
    + intros Hset. contradiction.
  - apply Hsame. cbn. unfold App.handleNextVideo. now repeat case_match.
  - apply Hsame. cbn. unfold App.handlePrevVideo. now repeat case_match.
Qed.

Lemma entries_only_appended_witness :
  exists added : list VideoFile.t,
    App.videos (app Sample.at_next)
    = (App.videos (app Sample.sped_up) ++ added)%list
    /\ (forall (i : Z) (v : VideoFile.t),
          Js.at_index (App.videos (app Sample.sped_up)) i = Some v ->
          Js.at_index (App.videos (app Sample.at_next)) i = Some v)
    /\ (App.currentVideoIndex (app Sample.sped_up) <> None -> added = []).
Proof.
  apply (entries_only_appended Sample.counting Sample.sped_up Sample.at_next).
  apply step_at_next.
Defined.

(** *** Next and previous *)

(** Where there is a next entry, going to it and back returns the state
    the root controller was in; and so does going to the previous entry
    and forward again, for an index within the list. *)
Theorem next_prev_round_trip (a : App.State) (i : Z) :
  App.currentVideoIndex a = Some i ->
  (0 <= i -> App.hasNext a = true ->
   App.handlePrevVideo (App.handleNextVideo a) = a)
  /\ (i < Js.length (App.videos a) -> App.hasPrev a = true ->
      App.handleNextVideo (App.handlePrevVideo a) = a).
Proof.
  destruct a as [videos index]. cbn. intros ->. split.
  - unfold App.hasNext, App.handleNextVideo, App.handlePrevVideo. cbn.
    intros Hi Hnext. rewrite Hnext. cbn.
    destruct (Z.gtb_spec (i + 1) 0); [ | lia ].
    do 2 f_equal. lia.
  - unfold App.hasPrev, App.handleNextVideo, App.handlePrevVideo. cbn.
    intros Hi Hprev. rewrite Hprev. cbn.
    destruct (Z.ltb_spec (i - 1) (Js.length videos - 1)); [ | lia ].
    do 2 f_equal. lia.
Qed.

Lemma next_prev_round_trip_witness :
  App.handlePrevVideo (App.handleNextVideo (Sample.two_videos (Some 0)))
  = Sample.two_videos (Some 0)
  /\ App.handleNextVideo (App.handlePrevVideo (Sample.two_videos (Some 1)))
     = Sample.two_videos (Some 1).
Proof.
  split.
  - apply (next_prev_round_trip (Sample.two_videos (Some 0)) 0 eq_refl);
      [ lia | reflexivity ].
  - apply (next_prev_round_trip (Sample.two_videos (Some 1)) 1 eq_refl);
      [ reflexivity | reflexivity ].
Defined.

(** *** What the player view is given *)

(** In every state the application reaches, the player view is mounted
    exactly when an index is set, and then [videos[currentVideoIndex]] is
    an entry: the player view is never given [undefined]. *)
Theorem player_is_given_an_entry (o : Library.Oracle) (s : State) :
  reachable o s ->
  (App.currentVideoIndex (app s) = None <-> player s = None)
  /\ (forall i : Z,
        App.currentVideoIndex (app s) = Some i ->
        exists v : VideoFile.t,
          App.video (app s) = Some v
          /\ App.videos (app s) !! Z.to_nat i = Some v
          /\ is_Some (player s)).
Proof.
  intros Hreach.
  destruct (invariant_reachable o s Hreach) as (Hbounds & Hview & _).
  split; [ exact Hview | ]. intros i Hi.
  unfold App.index_in_bounds in Hbounds. rewrite Hi in Hbounds.
  unfold App.video, Js.at_index. rewrite Hi.
  destruct (Z.ltb_spec i 0); [ lia | ].
  destruct (App.videos (app s) !! Z.to_nat i) as [v|] eqn:E.
  - exists v. repeat split.
    destruct (player s) as [p|] eqn:Hp; [ eauto | ].
    apply Hview in Hp. congruence.
  - apply lookup_ge_None in E. unfold Js.length in Hbounds. lia.
Qed.

Lemma player_is_given_an_entry_witness :
  exists v : VideoFile.t,
    App.video (app Sample.sped_up) = Some v
    /\ App.videos (app Sample.sped_up) !! Z.to_nat 0 = Some v
    /\ is_Some (player Sample.sped_up).
Proof.
  apply (proj2 (player_is_given_an_entry Sample.counting Sample.sped_up
                  reachable_sped_up) 0).
  reflexivity.
Defined.

Lemma videoLoadEffect_source (video : VideoFile.t) (r : Media.PlayResult)
  (st : Player.State) (el : Media.t) :
  Player.videoRef st = Some el ->
  exists el' : Media.t,
    Player.videoRef (Player.videoLoadEffect video r st) = Some el'
    /\ Media.src el' = VideoFile.url video
    /\ Media.playbackRate el' = 1%float.
Proof.
  intros Hel. unfold Player.videoLoadEffect. rewrite Hel.
  destruct r; cbn; eauto.
Qed.

(** The source of the media element is the locator of the entry the root
    controller has selected, in every state the application reaches. *)
Theorem element_plays_selected
  (o : Library.Oracle) (s : State) (p : Player.State) :
  reachable o s ->
  player s = Some p ->
  exists (el : Media.t) (v : VideoFile.t),
    Player.videoRef p = Some el
    /\ App.video (app s) = Some v
    /\ Media.src el = VideoFile.url v.
Proof.
  intros Hreach. revert p.
  induction Hreach as [|s s' Hreach IH Hstep]; intros q Hq; [ discriminate | ].
  destruct (invariant_reachable o s Hreach) as (_ & Hview & _).
  unfold consistent in Hview.
  destruct Hstep as
    [ s files newVideos Hidx Hsel Hcall
    | s group folderName Hidx Hsel Hgroup Hkey
    | s Hidx Hsel
    | s group shown video bound r Hidx Hsel Hgroup Hshown Hin Hbound
    | s p e Hp Hallowed
    | s p c Hp Hc Hrendered
    | s p bound r Hp Hrendered Hnext Hbound
    | s p bound r Hp Hrendered Hprev Hbound ];
    cbn [player app] in Hq |- *.
  - apply Hview in Hidx. congruence.
  - now apply IH.
  - now apply IH.
  - injection Hq as <-.
    destruct (videoLoadEffect_source bound r Player.mounted Media.fresh eq_refl)
      as (el' & Href & Hsrc & _).
    exists el', bound. now repeat split.
  - injection Hq as <-. destruct (IH p Hp) as (el & v & Hel & Hv & Hsrc).
    destruct (not_bind e) eqn:Hbind.
    + destruct (step_requests e p el Hbind Hel)
        as (el' & requests & Href & _ & _ & _ & Hkept).
      exists el', v. repeat split; [ exact Href | exact Hv | congruence ].
    + destruct e; try discriminate Hbind. cbn in Hallowed. cbn [Player.step].
      destruct (videoLoadEffect_source video r p el Hel) as (el' & Href & Hsrc' & _).
      exists el', video. now repeat split.
  - discriminate.
  - injection Hq as <-. destruct (IH p Hp) as (el & v & Hel & _).
    destruct (videoLoadEffect_source bound r p el Hel) as (el' & Href & Hsrc & _).
    exists el', bound. now repeat split.
  - injection Hq as <-. destruct (IH p Hp) as (el & v & Hel & _).
    destruct (videoLoadEffect_source bound r p el Hel) as (el' & Href & Hsrc & _).
    exists el', bound. now repeat split.
Qed.

Lemma element_plays_selected_witness :
  exists (el : Media.t) (v : VideoFile.t),
    Player.videoRef (Player.videoLoadEffect Sample.video_b Media.Fulfilled Sample.faster)
    = Some el
    /\ App.video (app Sample.at_next) = Some v
    /\ Media.src el = VideoFile.url v.
Proof.
  apply (element_plays_selected Sample.counting Sample.at_next).
  - apply (reachable_step _ Sample.sped_up);
      [ apply reachable_sped_up | apply step_at_next ].
  - reflexivity.
Defined.

(** *** Speed across a change of entry *)

(** Binding an entry makes no request about the playback rate: the load
    leaves the element at the default rate 1 (as the HTML standard has
    [load()] do), while the settings keep the speed they show. *)
Theorem bind_leaves_rate_default
  (video : VideoFile.t) (r : Media.PlayResult) (st : Player.State) (el : Media.t) :
  Player.videoRef st = Some el ->
  exists el' : Media.t,
    Player.videoRef (Player.videoLoadEffect video r st) = Some el'
    /\ Media.playbackRate el' = 1%float
    /\ playbackSpeed (Player.settings (Player.videoLoadEffect video r st))
       = playbackSpeed (Player.settings st)
    /\ forallb (fun c => match c with
                         | Media.SetPlaybackRate _ => false
                         | _ => true
                         end)
         (skipn (List.length (Media.calls el)) (Media.calls el')) = true.
Proof.
  intros Hel. unfold Player.videoLoadEffect. rewrite Hel.
  exists (Media.play r (Media.load
            (Media.set_src (VideoFile.url video) (Media.pause el)))).
  split; [ now destruct r | split; [ reflexivity | split ] ].
  - now destruct r.
  - cbn [Media.calls Media.play Media.load Media.set_src Media.pause].
    rewrite <- !app_assoc. rewrite skipn_app, Nat.sub_diag, skipn_all.
    reflexivity.
Qed.

Lemma bind_leaves_rate_default_witness :
  exists el' : Media.t,
    Player.videoRef (Player.videoLoadEffect Sample.video_b Media.Fulfilled Sample.faster)
    = Some el'
    /\ Media.playbackRate el' = 1%float
    /\ playbackSpeed
         (Player.settings
            (Player.videoLoadEffect Sample.video_b Media.Fulfilled Sample.faster))
       = 1.25%float.
Proof.
  pose proof (bind_leaves_rate_default Sample.video_b Media.Fulfilled Sample.faster)
    as H.
  destruct (Player.videoRef Sample.faster) as [el|] eqn:Hel; [ | discriminate Hel ].
  destruct (H el eq_refl) as (el' & Href & Hrate & Hspeed & _).
  exists el'. split; [ exact Href | split; [ exact Hrate | ] ].
  rewrite Hspeed. reflexivity.
Defined.

(** *** The inactivity timer *)

(** A click on the surface shows the controls and starts the timer; when
    the timer fires, the controls are hidden exactly if the player was
    playing and unlocked at the click, and a timer fires only once. *)
Theorem controls_hide_when_playing (st : Player.State) :
  Player.showControls (Player.act Player.ClickSurface st) = true
  /\ Player.showControls
       (Player.step Player.TimerFired (Player.act Player.ClickSurface st))
     = negb (Player.isPlaying st && negb (isLocked (Player.settings st)))
  /\ Player.step Player.TimerFired
       (Player.step Player.TimerFired (Player.act Player.ClickSurface st))
     = Player.step Player.TimerFired (Player.act Player.ClickSurface st)
  /\ same_but_controls st
       (Player.step Player.TimerFired (Player.act Player.ClickSurface st)).
Proof.
  unfold same_but_controls. cbn.
  destruct (Player.isPlaying st), (isLocked (Player.settings st)); cbn;
    repeat split.
Qed.

(** *** Selections and the folder view *)

(** Cancelling the selection calls nothing; a selection without a video
    file calls [onAddVideos] with an empty list, which leaves the state of
    the root controller as it is. *)
Theorem selection_without_videos
  (o : Library.Oracle) (n : nat) (files : list File.t) (a : App.State) :
  (forall file, In file files -> Js.startsWith (File.type file) "video/" = false) ->
  Library.handleFolderSelect o n None = None
  /\ Library.handleFolderSelect o n (Some files) = Some []
  /\ App.handleAddVideos [] a = a.
Proof.
  intros Hnone. split; [ reflexivity | split ].
  - unfold Library.handleFolderSelect.
    replace (List.filter Library.is_video files) with (@nil File.t); [ reflexivity | ].
    symmetry. induction files as [|file rest IH]; [ reflexivity | ].
    cbn. unfold Library.is_video at 1. rewrite (Hnone file) by now left.
    apply IH. intros f Hf. apply Hnone. now right.
  - destruct a as [videos index]. unfold App.handleAddVideos. cbn.
    now rewrite app_nil_r.
Qed.

Lemma selection_without_videos_witness :
  Library.handleFolderSelect Sample.counting 0 (Some [Sample.file_notes]) = Some []
  /\ App.handleAddVideos [] (Sample.two_videos None) = Sample.two_videos None.
Proof.
  apply (selection_without_videos Sample.counting 0 [Sample.file_notes]
           (Sample.two_videos None)).
  intros file [<-|[]]. reflexivity.
Defined.

(** The folder view lists the entries of the selected folder and no
    others, in the order of the list; with no folder selected, or one
    whose name is the empty string, it lists nothing. *)
Theorem folder_view_lists_folder
  (videos : list VideoFile.t) (group : gmap string (list VideoFile.t))
  (lib : Library.State) :
  Library.folders videos = inr group ->
  (Js.truthy_string (Library.selectedFolderName lib) = false ->
   Library.filteredVideos group lib = Library.OwnArray [])
  /\ (Library.selectedFolderName lib = Some EmptyString ->
      Library.filteredVideos group lib = Library.OwnArray [])
  /\ (forall k : string,
        Library.selectedFolderName lib = Some k ->
        k <> EmptyString ->
        is_Some (group !! k) ->
        Library.filteredVideos group lib
        = Library.OwnArray (Library.with_folder k videos)).
Proof.
  intros Hgroup. unfold Library.filteredVideos.
  split; [ now intros -> | split ].
  - now intros ->.
  - intros k -> Hk [l Hl].
    replace (Js.truthy_string (Some k)) with true by (now destruct k).
    cbn [default from_option id]. unfold id, Library.get. rewrite Hl.
    rewrite (folders_lookup _ _ k Hgroup) in Hl.
    destruct (Library.with_folder k videos); [ discriminate | congruence ].
Qed.

Lemma folder_view_lists_folder_witness :
  Library.filteredVideos {[ "Movies" := [Sample.video_a; Sample.video_b] ]}
    {| Library.selectedFolderName := Some "Movies" |}
  = Library.OwnArray
      (Library.with_folder "Movies" [Sample.video_a; Sample.video_b]).
Proof.
  apply (folder_view_lists_folder [Sample.video_a; Sample.video_b]
           {[ "Movies" := [Sample.video_a; Sample.video_b] ]}
           {| Library.selectedFolderName := Some "Movies" |}).
  - vm_compute. reflexivity.
  - reflexivity.
  - discriminate.
  - eexists. vm_compute. reflexivity.
Defined.

End ApplicationFacts.
